(** * Route: handler registration and the dispatch pipeline

    A shallow embedding of [lib/router/route.js]: the [Route] constructor,
    [Route.prototype.dispatch] with its inner continuation [next], and the
    registration methods [Route.prototype.all] and [Route.prototype.get].

    Route objects live in a store addressed by locations, so that "the
    same object" is a statement about locations.  A dispatch is observed
    through its trace: the entry points of layers it invokes and the calls
    it makes to [done].  The continuation is embedded twice: as the step
    function [next] (one call, one reaction of the dispatcher) and as
    [call_next], which follows the re-entry of the continuation by the
    handlers it invokes.  A handler is known by the calls it makes to its
    continuation; they are followed in the order of the JavaScript call
    stack, which is also the order of the events when each handler makes
    its one call later, from a callback.

    Two more modules embed what the request and response classes compute:
    [RequestClass] the getter [path] of [lib/request.js], [ResponseClass]
    the methods [send], [json] and [end], the helper [stringify], and the
    file transfer of [sendFile] and [sendfile] of [lib/response.js]. *)

From stdpp Require Import gmap strings list fin_maps.

#[local] Set Warnings "-register-all".

(** ** JavaScript values *)

(** Object identity is a location of the store. *)
Definition loc := nat.

(** The values that reach [route.js]: handler arguments, error values and
    control sentinels.  Numbers are kept to the integers plus [NaN], which
    is all that truthiness and [typeof] can tell apart here. *)
Inductive value : Type :=
| VUndefined
| VNull
| VBool (b : bool)
| VNumber (z : Z)
| VNaN
| VString (s : string)
| VObject (class : string) (id : loc)
| VFunction (id : loc) (arity : nat)
| VArray (elems : list value).

(** [ToBoolean], the test behind [if (err)] and [err && ...]. *)
Definition truthy (v : value) : bool :=
  match v with
  | VUndefined | VNull | VNaN => false
  | VBool b => b
  | VNumber z => negb (Z.eqb z 0)
  | VString s => negb (String.eqb s "")
  | VObject _ _ | VFunction _ _ | VArray _ => true
  end.

(** [v === s] for a string literal [s]: only the primitive string is
    strictly equal to it. *)
Definition strict_eq_string (v : value) (s : string) : bool :=
  match v with
  | VString s' => String.eqb s' s
  | _ => false
  end.

(** [typeof v === 'function'] *)
Definition is_function (v : value) : bool :=
  match v with
  | VFunction _ _ => true
  | _ => false
  end.

(** [Object.prototype.toString.call(v)] *)
Definition toString_call (v : value) : string :=
  match v with
  | VUndefined => "[object Undefined]"
  | VNull => "[object Null]"
  | VBool _ => "[object Boolean]"
  | VNumber _ | VNaN => "[object Number]"
  | VString _ => "[object String]"
  | VObject class _ => "[object " +:+ class +:+ "]"
  | VFunction _ _ => "[object Function]"
  | VArray _ => "[object Array]"
  end.

(** Modelled from the spec: [flatten] is the [array-flatten] package, which
    is not part of the sources; section 4.1 says the possibly nested
    argument list "is flattened into a single ordered sequence". *)
Fixpoint flatten_value (v : value) : list value :=
  match v with
  | VArray elems =>
      (fix flatten_elems (vs : list value) : list value :=
         match vs with
         | [] => []
         | v' :: vs' => flatten_value v' ++ flatten_elems vs'
         end) elems
  | _ => [v]
  end.

Definition flatten (args : list value) : list value :=
  flatten_value (VArray args).

(** ** Requests, responses, layers and routes *)

(** Request and response are plain objects; only their properties matter. *)
Abbreviation Request := (gmap string value).
Abbreviation Response := (gmap string value).

(** Modelled from the spec: [Layer] ([./layer]) is not part of the sources.
    Section 4.3 gives its interface: a classification fixed at construction
    (normal or error-capable) and two entry points, [handle_request(req,
    res, next)] and [handle_error(err, req, res, next)].  What the
    dispatcher can observe of an entry point is the calls it makes to the
    continuation it was handed, in order; each entry is the value bound to
    the parameter [err] of [next] ([next()] binds [undefined]). *)
Record Layer : Type := mkLayer {
  error_capable : bool;
  handle_request : list value;
  handle_error : value → list value;
}.

(** [new Route(path)]: [this.path = path; this.stack = []]. *)
Record Route : Type := mkRoute {
  path : string;
  stack : list Layer;
}.

Abbreviation heap := (gmap loc Route).

Definition Route_new (p : string) : Route :=
  {| path := p; stack := [] |}.

(** The reference to the route object stored at [this]. *)
Definition route_ref (this : loc) : value := VObject "Object" this.

(** ** Dispatch *)

(** What one call of the continuation makes the dispatcher do. *)
Inductive action : Type :=
| CallDone (args : list value)
| CallHandleRequest (layer : Layer)
| CallHandleError (layer : Layer) (err : value).

(** What an observer of a dispatch sees: entry points of layers being
    invoked (with the position of the layer in the stack and the request
    and response handed over) and [done] being called with its argument
    list. *)
Inductive event : Type :=
| EvRequest (pos : nat) (layer : Layer) (req : Request) (res : Response)
| EvError (pos : nat) (layer : Layer) (err : value)
    (req : Request) (res : Response)
| EvDone (args : list value).

Section Dispatch.

Variable stack_ : list Layer.
Variables (req : Request) (res : Response).

(** [function next (err)] of [dispatch], as a function of the cursor
    [idx]: it returns the cursor after the call and the call made. *)
Definition next (idx : nat) (err : value) : nat * action :=
  if truthy err && strict_eq_string err "route" then
    (idx, CallDone [])
  else if truthy err && strict_eq_string err "router" then
    (idx, CallDone [err])
  else
    match stack_ !! idx with
    | None => (S idx, CallDone [err])
    | Some layer =>
        if truthy err then (S idx, CallHandleError layer err)
        else (S idx, CallHandleRequest layer)
    end.

(** The continuation calls of one handler, made one after the other on
    the cursor left behind by the previous one. *)
Fixpoint run_calls (k : nat → value → option (nat * list event))
    (idx : nat) (calls : list value) : option (nat * list event) :=
  match calls with
  | [] => Some (idx, [])
  | err :: calls' =>
      '(idx1, t1) ← k idx err;
      '(idx2, t2) ← run_calls k idx1 calls';
      Some (idx2, t1 ++ t2)
  end.

(** One call [next(err)] together with everything it triggers while it
    is on the JavaScript call stack: the layer it invokes calls [next]
    again, and so on.  [depth] bounds the nesting of these calls; each
    nested call sees a larger cursor, so [length stack_ - idx] is always
    enough (lemma [call_next_total]).  [None] is "depth exhausted". *)
Fixpoint call_next (depth : nat) (idx : nat) (err : value)
    : option (nat * list event) :=
  match next idx err with
  | (idx', CallDone args) => Some (idx', [EvDone args])
  | (idx', CallHandleRequest layer) =>
      match depth with
      | 0 => None
      | S depth' =>
          '(idx'', t) ← run_calls (call_next depth') idx'
                          (handle_request layer);
          Some (idx'', EvRequest idx layer req res :: t)
      end
  | (idx', CallHandleError layer e) =>
      match depth with
      | 0 => None
      | S depth' =>
          '(idx'', t) ← run_calls (call_next depth') idx'
                          (handle_error layer e);
          Some (idx'', EvError idx layer e req res :: t)
      end
  end.

End Dispatch.

(** [Route.prototype.dispatch].  The result is the store, the request as
    [dispatch] leaves it, and the events of the call.  The nesting depth
    handed to [call_next] is the length of the stack, which is enough:
    the result is [None] only if [this] is not a route of the store (lemma
    [dispatch_total]). *)
Definition dispatch (this : loc) (req : Request) (res : Response)
    (h : heap) : option (heap * Request * list event) :=
  r ← h !! this;
  let stack_ := stack r in
  if decide (length stack_ = 0) then
    Some (h, req, [EvDone []])
  else
    let req' := <["route" := route_ref this]> req in
    '(_, t) ← call_next stack_ req' res (length stack_) 0 VUndefined;
    Some (h, req', t).

(** The calls of [done] in a trace, each with its argument list. *)
Definition done_calls (t : list event) : list (list value) :=
  omap (λ e, match e with EvDone args => Some args | _ => None end) t.

(** The positions of the layers invoked in a trace. *)
Definition invoked (t : list event) : list nat :=
  omap (λ e, match e with
             | EvRequest pos _ _ _ | EvError pos _ _ _ _ => Some pos
             | EvDone _ => None
             end) t.

(** The three outcomes on which the caller of [dispatch] branches. *)
Inductive outcome : Type :=
| Success
| Failure (err : value)
| DeferToRouter.

Definition done_outcome (args : list value) : option outcome :=
  match args with
  | [] => Some Success
  | [v] =>
      if strict_eq_string v "router" then Some DeferToRouter
      else if strict_eq_string v "route" then None
      else if truthy v then Some (Failure v)
      else Some Success
  | _ => None
  end.

(** ** Registration *)

Inductive exn : Type :=
| TypeError (message : string)
| Error (message : string).

Definition exn_message (e : exn) : string :=
  match e with TypeError m | Error m => m end.

(** How a method call ends: [return v] or [throw e]. *)
Inductive completion : Type :=
| Returns (v : value)
| Throws (e : exn).

Section Registration.

(** The constructor [Layer(path, options, fn)] of the collaborator. *)
Variable Layer_ : string → gmap string value → value → Layer.

(** The [for] loop shared by [all] and [get]: the stack as the loop
    leaves it, and the exception if it threw.  [throw_] builds the
    exception of the method from the offending handle. *)
Fixpoint handles_loop (throw_ : value → exn) (handles : list value)
    (stack_ : list Layer) : list Layer * option exn :=
  match handles with
  | [] => (stack_, None)
  | handle :: handles' =>
      if negb (is_function handle) then
        (stack_, Some (throw_ handle))
      else
        let layer := Layer_ "/" ∅ handle in
        handles_loop throw_ handles' (stack_ ++ [layer])
  end.

Definition all_throw (handle : value) : exn :=
  let type := toString_call handle in
  let msg := "Route.all() requires a callback function but got a "
             +:+ type in
  TypeError msg.

Definition get_throw (handle : value) : exn :=
  let type := toString_call handle in
  let msg := "Route.get() requires a callback function but got a "
             +:+ type in
  Error msg.

(** A registration method on the route at [this]: the pushes made before
    a [throw] stay in the stack. *)
Definition register (throw_ : value → exn) (this : loc)
    (args : list value) (h : heap) : option (heap * completion) :=
  r ← h !! this;
  let handles := flatten args in
  let '(stack', thrown) := handles_loop throw_ handles (stack r) in
  let h' := <[this := {| path := path r; stack := stack' |}]> h in
  match thrown with
  | Some e => Some (h', Throws e)
  | None => Some (h', Returns (route_ref this))
  end.

(** [Route.prototype.all] *)
Definition all : loc → list value → heap → option (heap * completion) :=
  register all_throw.

(** [Route.prototype.get]; the [debug] line only logs. *)
Definition get : loc → list value → heap → option (heap * completion) :=
  register get_throw.

End Registration.

(** ** Sample layers and handlers *)

(** [function (req, res, next) { next(); }] *)
Definition pass_layer : Layer :=
  {| error_capable := false;
     handle_request := [VUndefined];
     handle_error := λ err, [err] |}.

(** [function (req, res, next) { res.send('ok'); }]: responds and never
    calls its continuation (the second handler of scenario A). *)
Definition send_layer : Layer :=
  {| error_capable := false;
     handle_request := [];
     handle_error := λ err, [err] |}.

Definition boom : value := VObject "Error" 7.

(** [function (req, res, next) { next(new Error('boom')); }] *)
Definition boom_layer : Layer :=
  {| error_capable := false;
     handle_request := [boom];
     handle_error := λ err, [err] |}.

(** [function (err, req, res, next) { next(); }] *)
Definition recover_layer : Layer :=
  {| error_capable := true;
     handle_request := [VUndefined];
     handle_error := λ _, [VUndefined] |}.

(** A constructor for concrete runs: every handler passes control on. *)
Definition sample_Layer (p : string) (options : gmap string value)
    (fn : value) : Layer :=
  match fn with
  | VFunction _ 4 => recover_layer
  | _ => pass_layer
  end.

Definition handler_a : value := VFunction 1 3.
Definition handler_b : value := VFunction 2 3.

(** The events of consecutive layers invoked in normal mode, the first of
    them at position [from]. *)
Fixpoint request_events (req : Request) (res : Response) (from : nat)
    (layers : list Layer) : list event :=
  match layers with
  | [] => []
  | layer :: layers' =>
      EvRequest from layer req res :: request_events req res (S from) layers'
  end.


(** An event hands over the request [req] and the response [res], if it
    hands over any. *)
Definition carries (req : Request) (res : Response) (e : event) : Prop :=
  match e with
  | EvRequest _ _ q s | EvError _ _ _ q s => q = req ∧ s = res
  | EvDone _ => True
  end.


(** No entry point of the layer calls the continuation twice. *)
Definition calls_at_most_once (layer : Layer) : Prop :=
  length (handle_request layer) ≤ 1
  ∧ ∀ err, length (handle_error layer err) ≤ 1.

(** The position of the layer an event invokes and the calls that layer
    makes to its continuation in answer. *)
Definition event_calls (e : event) : option (nat * list value) :=
  match e with
  | EvRequest pos layer _ _ => Some (pos, handle_request layer)
  | EvError pos layer err _ _ => Some (pos, handle_error layer err)
  | EvDone _ => None
  end.

(** The trace of a call [next(err)] at cursor [idx] when no layer calls its
    continuation twice: a chain of invocations, each started by the one
    call of the layer before, that ends with a layer that keeps silent or
    with a call of [done]. *)
Inductive chain (stack_ : list Layer) (req : Request) (res : Response)
    : nat → value → list event → Prop :=
| chain_done idx err idx' args :
    next stack_ idx err = (idx', CallDone args) →
    chain stack_ req res idx err [EvDone args]
| chain_request_silent idx err idx' layer :
    next stack_ idx err = (idx', CallHandleRequest layer) →
    handle_request layer = [] →
    chain stack_ req res idx err [EvRequest idx layer req res]
| chain_request_call idx err idx' layer err' t :
    next stack_ idx err = (idx', CallHandleRequest layer) →
    handle_request layer = [err'] →
    chain stack_ req res idx' err' t →
    chain stack_ req res idx err (EvRequest idx layer req res :: t)
| chain_error_silent idx err idx' layer e :
    next stack_ idx err = (idx', CallHandleError layer e) →
    handle_error layer e = [] →
    chain stack_ req res idx err [EvError idx layer e req res]
| chain_error_call idx err idx' layer e err' t :
    next stack_ idx err = (idx', CallHandleError layer e) →
    handle_error layer e = [err'] →
    chain stack_ req res idx' err' t →
    chain stack_ req res idx err (EvError idx layer e req res :: t).


(** [function (req, res, next) { next('route'); }] *)
Definition route_layer : Layer :=
  {| error_capable := false;
     handle_request := [VString "route"];
     handle_error := λ err, [err] |}.

(** [function (req, res, next) { next('router'); }] *)
Definition router_layer : Layer :=
  {| error_capable := false;
     handle_request := [VString "router"];
     handle_error := λ err, [err] |}.

(** [function (req, res, next) { next(); next(); }] *)
Definition twice_layer : Layer :=
  {| error_capable := false;
     handle_request := [VUndefined; VUndefined];
     handle_error := λ err, [err] |}.

(** The layer an event invokes is the one the stack holds at the position
    the event names. *)
Definition invokes_from (stack_ : list Layer) (e : event) : Prop :=
  match e with
  | EvRequest pos layer _ _ | EvError pos layer _ _ _ =>
      stack_ !! pos = Some layer
  | EvDone _ => True
  end.

(** The values that the layers invoked in a trace pass to their
    continuations. *)
Definition passed (t : list event) : list value :=
  t ≫= λ e, match event_calls e with
            | Some (_, calls) => calls
            | None => []
            end.

(** The value an event hands on, to an error handler or to [done], is one
    of those that [ok] admits. *)
Definition hands_on (ok : value → Prop) (e : event) : Prop :=
  match e with
  | EvRequest _ _ _ _ => True
  | EvError _ _ err _ _ => ok err
  | EvDone args => Forall ok args
  end.

(** [function (req, res, next) { next(null); }] *)
Definition null_layer : Layer :=
  {| error_capable := false;
     handle_request := [VNull];
     handle_error := λ err, [err] |}.

(** [function (req, res, next) { next(0); }] *)
Definition zero_layer : Layer :=
  {| error_capable := false;
     handle_request := [VNumber 0];
     handle_error := λ err, [err] |}.

(** The layer that an event invokes answers with at most one call to its
    continuation. *)
Definition answers_once (e : event) : Prop :=
  match event_calls e with
  | Some (_, calls) => length calls ≤ 1
  | None => True
  end.

(** In the trace [t] no layer calls its continuation more than once. *)
Definition no_second_call (t : list event) : Prop :=
  Forall answers_once t.


(** ** The request class ([lib/request.js]) *)

Module RequestClass.

Import Stdlib.Strings.Ascii.

(** The character that ends the path in a selector. *)
Definition query_mark : ascii := "?"%char.

(** [str.indexOf(c)] for a search string of one character [c]: the index
    of its first occurrence, or [-1]. *)
Fixpoint indexOf (str : string) (c : ascii) : Z :=
  match str with
  | EmptyString => -1
  | String c' str' =>
      if Ascii.eqb c' c then 0
      else let i := indexOf str' c in
           if (i <? 0)%Z then -1 else (1 + i)%Z
  end.

(** [str.substr(start, length)]: a negative [start] counts from the end,
    and the length is cut to what the string holds. *)
Definition substr (str : string) (start length : Z) : string :=
  let len := Z.of_nat (String.length str) in
  let from := if (start <? 0)%Z then Z.max (len + start) 0
              else Z.min start len in
  let count := Z.min (Z.max length 0) (len - from) in
  String.substring (Z.to_nat from) (Z.to_nat count) str.

(** The socket, as far as the class reads it. *)
Record Connection : Type := mkConnection {
  encrypted : value;
  remoteAddress : value;
}.

(** [constructor (app, connection, selector)]; of the application only
    the settings, read through [app.get], are used. *)
Record Request : Type := mkRequest {
  app : string → value;
  connection : Connection;
  selector : string;
}.

(** [get path ()] *)
Definition path (this : Request) : string :=
  let idx := indexOf (selector this) query_mark in
  if (idx >=? 0)%Z then substr (selector this) 0 idx else selector this.

End RequestClass.

(** ** The response class ([lib/response.js]) *)

Module ResponseClass.

Import Stdlib.Strings.Ascii.

(** [typeof v] *)
Definition typeof (v : value) : string :=
  match v with
  | VUndefined => "undefined"
  | VNull => "object"
  | VBool _ => "boolean"
  | VNumber _ | VNaN => "number"
  | VString _ => "string"
  | VObject _ _ | VArray _ => "object"
  | VFunction _ _ => "function"
  end.

(** [arguments[i]], [undefined] past the end. *)
Definition argument (args : list value) (i : nat) : value :=
  default VUndefined (args !! i).

(** What a method does to the outside: the warnings it hands to
    [deprecate] and the calls it makes on [this.connection]. *)
Inductive effect : Type :=
| Deprecate (message : string)
| ConnectionCork
| ConnectionEnd (chunk encoding callback : value)
| ConnectionUncork.

(** The chunks handed to [connection.end]. *)
Definition written (log : list effect) : list value :=
  omap (λ e, match e with
             | ConnectionEnd chunk _ _ => Some chunk
             | _ => None
             end) log.

(** The calls made on the connection, the warnings left out. *)
Definition connection_calls (log : list effect) : list effect :=
  omap (λ e, match e with
             | Deprecate _ => None
             | _ => Some e
             end) log.

(** The characters that [/[<>&]/] matches. *)
Definition sniffing (c : ascii) : bool :=
  Ascii.eqb c "<" || Ascii.eqb c ">" || Ascii.eqb c "&".

(** The function handed to [json.replace]: the [switch] on
    [c.charCodeAt(0)]. *)
Definition escape_char (c : ascii) : string :=
  match N_of_ascii c with
  | 0x3c%N => "\u003c"
  | 0x3e%N => "\u003e"
  | 0x26%N => "\u0026"
  | _ => String c EmptyString
  end.

(** [json.replace(/[<>&]/g, function (c) { ... })] *)
Fixpoint replace_sniffing (json : string) : string :=
  match json with
  | EmptyString => EmptyString
  | String c json' =>
      (if sniffing c then escape_char c else String c EmptyString)
      +:+ replace_sniffing json'
  end.

(** The string holds a character that [/[<>&]/] matches. *)
Fixpoint has_sniffing (str : string) : bool :=
  match str with
  | EmptyString => false
  | String c str' => sniffing c || has_sniffing str'
  end.

Section Methods.

(** [Buffer.isBuffer(v)] and [v instanceof Buffer], of [safe-buffer]. *)
Variable Buffer_isBuffer : value → bool.
Variable instanceof_Buffer : value → bool.
(** [statuses[v]], of the package [statuses]. *)
Variable statuses : value → value.
(** [JSON.stringify(...)], which returns or throws. *)
Variable JSON_stringify : list value → completion.
(** [this.app.get(setting)] *)
Variable app_get : string → value.
(** The response object itself. *)
Variable this : value.

(** [stringify (value, replacer, spaces, escape)].  A [json] that is not
    a string has no method [replace], and the call is a [TypeError] of the
    engine. *)
Definition stringify (value_ replacer spaces escape : value) : completion :=
  let json :=
    if truthy replacer || truthy spaces
    then JSON_stringify [value_; replacer; spaces]
    else JSON_stringify [value_] in
  match json with
  | Throws e => Throws e
  | Returns json =>
      if truthy escape then
        match json with
        | VString str => Returns (VString (replace_sniffing str))
        | _ => Throws (TypeError "json.replace is not a function")
        end
      else Returns json
  end.

(** [end (chunk, encoding, callback)] *)
Definition end_ (args : list value) : list effect * completion :=
  let chunk := argument args 0 in
  let encoding := argument args 1 in
  let callback := argument args 2 in
  let '(chunk, encoding, callback) :=
    if String.eqb (typeof chunk) "function" then (VNull, encoding, chunk)
    else if String.eqb (typeof encoding) "function"
         then (chunk, VNull, encoding)
         else (chunk, encoding, callback) in
  if truthy chunk then
    if negb (String.eqb (typeof chunk) "string")
       && negb (instanceof_Buffer chunk)
    then ([], Throws (TypeError "Chunk must be either string or buffer"))
    else
      let uncork := true in
      ([ConnectionCork; ConnectionEnd chunk encoding callback]
       ++ (if uncork then [ConnectionUncork] else []),
       Returns this)
  else ([], Returns this).

(** The connection is left alone, or is handed one chunk between [cork]
    and [uncork], a string or a buffer that is not empty, by a call that
    returns the response. *)
Definition disciplined (r : list effect * completion) : Prop :=
  (connection_calls r.1 = []
   ∧ (r.2 = Returns this ∨ ∃ e, r.2 = Throws e))
  ∨ ∃ chunk,
      connection_calls r.1
      = [ConnectionCork; ConnectionEnd chunk VUndefined VUndefined;
         ConnectionUncork]
      ∧ r.2 = Returns this
      ∧ truthy chunk = true
      ∧ (typeof chunk = "string" ∨ instanceof_Buffer chunk = true).

(** [send (body)], given [this.json]. *)
Definition send_with (json : list value → option (list effect * completion))
    (args : list value) : option (list effect * completion) :=
  let body := argument args 0 in
  let chunk := body in
  let '(log1, chunk) :=
    if length args =? 2 then
      if negb (String.eqb (typeof (argument args 0)) "number")
         && String.eqb (typeof (argument args 1)) "number"
      then ([Deprecate
              "res.send(body, status): Use res.status(status).send(body) instead"],
            chunk)
      else ([Deprecate
              "res.send(status, body): Use res.status(status).send(body) instead"],
            argument args 1)
    else ([], chunk) in
  let '(log2, chunk) :=
    if String.eqb (typeof chunk) "number" && (length args =? 1)
    then ([Deprecate
            "res.send(status): Use res.sendStatus(status) instead"],
          statuses chunk)
    else ([], chunk) in
  let respond (chunk : value) :=
    let '(log3, c) := end_ [chunk] in
    Some (log1 ++ log2 ++ log3,
          match c with Returns _ => Returns this | Throws e => Throws e end) in
  if String.eqb (typeof chunk) "boolean"
     || String.eqb (typeof chunk) "number"
     || String.eqb (typeof chunk) "object"
  then
    match chunk with
    | VNull => respond (VString "")
    | _ =>
        if negb (Buffer_isBuffer chunk) then
          '(log3, c) ← json [chunk];
          Some (log1 ++ log2 ++ log3, c)
        else respond chunk
    end
  else respond chunk.

(** [json (obj)], given [this.send]. *)
Definition json_with (send : list value → option (list effect * completion))
    (args : list value) : option (list effect * completion) :=
  let obj := argument args 0 in
  let val := obj in
  let '(log1, val) :=
    if length args =? 2 then
      if String.eqb (typeof (argument args 1)) "number"
      then ([Deprecate
              "res.json(obj, status): Use res.status(status).json(obj) instead"],
            val)
      else ([Deprecate
              "res.json(status, obj): Use res.status(status).json(obj) instead"],
            argument args 1)
    else ([], val) in
  let escape := app_get "json escape" in
  let replacer := app_get "json replacer" in
  let spaces := app_get "json spaces" in
  match stringify val replacer spaces escape with
  | Throws e => Some (log1, Throws e)
  | Returns body =>
      '(log2, c) ← send [body];
      Some (log1 ++ log2, c)
  end.

(** [send] and [json] call each other; [depth] bounds how often [send]
    may go through [json] before the result is [None]. *)
Fixpoint send (depth : nat) (args : list value)
    : option (list effect * completion) :=
  send_with
    (json_with
       (match depth with
        | 0 => λ _, None
        | S depth' => send depth'
        end))
    args.

Definition json (depth : nat) (args : list value)
    : option (list effect * completion) :=
  json_with (send depth) args.

End Methods.

(** *** File transfer: [sendFile] and [sendfile] *)

(** The error that the callback of [sendfile] is handed: one of the two
    that [sendfile] makes itself, [new Error('Request aborted')] with
    [code = 'ECONNABORTED'] and [new Error('EISDIR, read')] with
    [code = 'EISDIR'], or the value that came with an event. *)
Inductive transfer_error : Type :=
| RequestAborted
| IsDirectory
| Raised (err : value).

(** What the file stream and the response emit during a transfer, and the
    turn of a function given to [setImmediate]. *)
Inductive transfer_event : Type :=
| FileDirectory
| FileEnd
| FileError (err : value)
| FileFile
| FileStream
| Finished (err : value)
| Immediate.

(** The variables [done] and [streaming] of [sendfile] ([streaming] is
    [undefined] at first), and the number of functions given to
    [setImmediate] that have not run yet. *)
Record transfer_state : Type := mkTransfer {
  done_ : bool;
  streaming : option bool;
  immediates : nat;
}.

Definition transfer_start : transfer_state :=
  {| done_ := false; streaming := None; immediates := 0 |}.

(** What the callback given by [sendFile] does: it calls the callback of
    the caller, or [next]; the argument is the parameter [err], [None]
    for [undefined]. *)
Inductive reaction : Type :=
| CallCallback (err : option transfer_error)
| CallNext (err : option transfer_error).

(** How [sendFile] ends: it throws, or it starts the transfer of
    [pathname] with the options [opts] ([None] is the fresh [{}]) and
    reacts to what the transfer reports. *)
Inductive sendFile_result : Type :=
| SendFileThrows (e : exn)
| SendFileTransfers (pathname : value) (opts : option value)
    (reactions : list reaction).

Section Transfer.

(** [object[key]] *)
Variable property : value → string → value.
(** [isAbsolute(path)] of [./utils] *)
Variable isAbsolute : value → bool.
(** [encodeURI(path)], which returns or throws. *)
Variable encodeURI : value → completion.

Definition error_truthy (err : option transfer_error) : bool :=
  match err with
  | None => false
  | Some (Raised v) => truthy v
  | Some _ => true
  end.

(** [err.code] and [err.syscall], read when [err] counts as true. *)
Definition error_code (err : option transfer_error) : value :=
  match err with
  | Some RequestAborted => VString "ECONNABORTED"
  | Some IsDirectory => VString "EISDIR"
  | Some (Raised v) => property v "code"
  | None => VUndefined
  end.

Definition error_syscall (err : option transfer_error) : value :=
  match err with
  | Some (Raised v) => property v "syscall"
  | _ => VUndefined
  end.

(** The handlers of [sendfile]: the state they leave and the calls they
    make to [callback], each given by the argument. *)
Definition onaborted (st : transfer_state)
    : transfer_state * list (option transfer_error) :=
  if done_ st then (st, [])
  else ({| done_ := true; streaming := streaming st;
           immediates := immediates st |},
        [Some RequestAborted]).

Definition ondirectory (st : transfer_state)
    : transfer_state * list (option transfer_error) :=
  if done_ st then (st, [])
  else ({| done_ := true; streaming := streaming st;
           immediates := immediates st |},
        [Some IsDirectory]).

Definition onerror (err : value) (st : transfer_state)
    : transfer_state * list (option transfer_error) :=
  if done_ st then (st, [])
  else ({| done_ := true; streaming := streaming st;
           immediates := immediates st |},
        [Some (Raised err)]).

Definition onend (st : transfer_state)
    : transfer_state * list (option transfer_error) :=
  if done_ st then (st, [])
  else ({| done_ := true; streaming := streaming st;
           immediates := immediates st |},
        [None]).

Definition onfile (st : transfer_state)
    : transfer_state * list (option transfer_error) :=
  ({| done_ := done_ st; streaming := Some false;
      immediates := immediates st |}, []).

Definition onstream (st : transfer_state)
    : transfer_state * list (option transfer_error) :=
  ({| done_ := done_ st; streaming := Some true;
      immediates := immediates st |}, []).

(** The function that [onfinish] gives to [setImmediate]. *)
Definition onimmediate (st : transfer_state)
    : transfer_state * list (option transfer_error) :=
  if negb (match streaming st with Some false => true | _ => false end)
     && negb (done_ st)
  then onaborted st
  else if done_ st then (st, [])
  else ({| done_ := true; streaming := streaming st;
           immediates := immediates st |},
        [None]).

Definition onfinish (err : value) (st : transfer_state)
    : transfer_state * list (option transfer_error) :=
  if truthy err && strict_eq_string (property err "code") "ECONNRESET"
  then onaborted st
  else if truthy err then onerror err st
  else if done_ st then (st, [])
  else ({| done_ := done_ st; streaming := streaming st;
           immediates := S (immediates st) |}, []).

(** One event of the transfer. *)
Definition transfer_step (st : transfer_state) (ev : transfer_event)
    : transfer_state * list (option transfer_error) :=
  match ev with
  | FileDirectory => ondirectory st
  | FileEnd => onend st
  | FileError err => onerror err st
  | FileFile => onfile st
  | FileStream => onstream st
  | Finished err => onfinish err st
  | Immediate =>
      match immediates st with
      | 0 => (st, [])
      | S pending =>
          onimmediate {| done_ := done_ st; streaming := streaming st;
                         immediates := pending |}
      end
  end.

(** [sendfile (res, file, options, callback)]: the calls made to
    [callback] over the events of the transfer. *)
Fixpoint sendfile_from (st : transfer_state) (events : list transfer_event)
    : list (option transfer_error) :=
  match events with
  | [] => []
  | ev :: events' =>
      let '(st', calls) := transfer_step st ev in
      calls ++ sendfile_from st' events'
  end.

Definition sendfile (events : list transfer_event)
    : list (option transfer_error) :=
  sendfile_from transfer_start events.

(** The callback that [sendFile] gives to [sendfile]. *)
Definition transfer_callback (done next : value)
    (err : option transfer_error) : list reaction :=
  if truthy done then [CallCallback err]
  else if error_truthy err && strict_eq_string (error_code err) "EISDIR"
  then [CallNext None]
  else if error_truthy err
          && negb (strict_eq_string (error_code err) "ECONNABORTED")
          && negb (strict_eq_string (error_syscall err) "write")
  then [CallNext err]
  else [].

(** [sendFile (path, options, callback)], with the events of the
    transfer that it starts; [next] is [req.next]. *)
Definition sendFile (next : value) (path_ options callback : value)
    (events : list transfer_event) : sendFile_result :=
  let done := callback in
  let opts := if truthy options then Some options else None in
  if negb (truthy path_) then
    SendFileThrows (TypeError "path argument is required to res.sendFile")
  else
    let '(done, opts) :=
      if String.eqb (typeof options) "function" then (options, None)
      else (done, opts) in
    let root := match opts with
                | Some o => property o "root"
                | None => VUndefined
                end in
    if negb (truthy root) && negb (isAbsolute path_) then
      SendFileThrows
        (TypeError "path must be absolute or specify root to res.sendFile")
    else
      match encodeURI path_ with
      | Throws e => SendFileThrows e
      | Returns pathname =>
          SendFileTransfers pathname opts
            (sendfile events ≫= transfer_callback done next)
      end.

End Transfer.

End ResponseClass.

(** * Properties *)

(** ** The continuation, one call at a time *)

Section DispatchFacts.

Context (stack_ : list Layer) (req : Request) (res : Response).

Lemma next_route idx :
  next stack_ idx (VString "route") = (idx, CallDone []).
Proof. reflexivity. Qed.

Lemma next_router idx :
  next stack_ idx (VString "router")
  = (idx, CallDone [VString "router"]).
Proof. reflexivity. Qed.

Lemma next_falsy idx err :
  truthy err = false →
  next stack_ idx err
  = (S idx, match stack_ !! idx with
            | Some layer => CallHandleRequest layer
            | None => CallDone [err]
            end).
Proof.
  intros Hf. unfold next. rewrite Hf. simpl.
  by destruct (stack_ !! idx).
Qed.


(** The cursor never moves back, and moves by at most one per call. *)
Lemma next_cursor idx err idx' a :
  next stack_ idx err = (idx', a) → idx ≤ idx' ≤ S idx.
Proof.
  unfold next. intros H.
  repeat case_match; simplify_eq; lia.
Qed.

(** A layer is only ever invoked from inside the stack. *)
Lemma next_invokes_in_range idx err idx' a :
  next stack_ idx err = (idx', a) →
  (∀ args, a ≠ CallDone args) →
  idx < length stack_ ∧ idx' = S idx.
Proof.
  unfold next. intros H Hnd.
  repeat case_match; simplify_eq;
    try (by exfalso; eapply Hnd);
    split; try done; by eapply lookup_lt_Some.
Qed.

Lemma run_calls_total (k : nat → value → option (nat * list event))
    (bound : nat) calls :
  (∀ idx err, bound ≤ idx →
     ∃ idx' t, k idx err = Some (idx', t) ∧ idx ≤ idx') →
  ∀ idx, bound ≤ idx →
    ∃ idx' t, run_calls k idx calls = Some (idx', t) ∧ idx ≤ idx'.
Proof.
  intros Hk. induction calls as [|err calls IH]; intros idx Hidx.
  - exists idx, []. split; [done | lia].
  - destruct (Hk idx err Hidx) as (idx1 & t1 & E1 & Hle1).
    destruct (IH idx1 ltac:(lia)) as (idx2 & t2 & E2 & Hle2).
    exists idx2, (t1 ++ t2). simpl. rewrite E1. simpl. rewrite E2. simpl.
    split; [done | lia].
Qed.

(** Enough depth gives a result: a call of the continuation returns,
    whatever the handlers do with their continuations. *)
Lemma call_next_total depth : ∀ idx err,
  length stack_ ≤ depth + idx →
  ∃ idx' t, call_next stack_ req res depth idx err = Some (idx', t)
            ∧ idx ≤ idx'.
Proof.
  induction depth as [|depth IH]; intros idx err Hd.
  - simpl. destruct (next stack_ idx err) as [idx' a] eqn:E.
    destruct a as [args|layer|layer e].
    + apply next_cursor in E. eexists _, _. split; [done | lia].
    + apply next_invokes_in_range in E as [Hlt _]; [lia | done].
    + apply next_invokes_in_range in E as [Hlt _]; [lia | done].
  - simpl. destruct (next stack_ idx err) as [idx' a] eqn:E.
    destruct a as [args|layer|layer e].
    + apply next_cursor in E. eexists _, _. split; [done | lia].
    + apply next_invokes_in_range in E as [Hlt ->]; [|done].
      destruct (run_calls_total (call_next stack_ req res depth) (S idx)
                  (handle_request layer)) with (idx := S idx)
        as (idx'' & t & Et & Hle); [|lia|].
      { intros i e' Hi. apply IH. lia. }
      rewrite Et. simpl. eexists _, _. split; [done | lia].
    + apply next_invokes_in_range in E as [Hlt ->]; [|done].
      destruct (run_calls_total (call_next stack_ req res depth) (S idx)
                  (handle_error layer e)) with (idx := S idx)
        as (idx'' & t & Et & Hle); [|lia|].
      { intros i e' Hi. apply IH. lia. }
      rewrite Et. simpl. eexists _, _. split; [done | lia].
Qed.

End DispatchFacts.

(** ** Dispatch over well-behaved layers *)

Section DispatchRuns.

Context (stack_ : list Layer) (req : Request) (res : Response).

Lemma run_calls_single (k : nat → value → option (nat * list event))
    idx err :
  run_calls k idx [err] = k idx err.
Proof.
  simpl. destruct (k idx err) as [[idx' t]|]; simpl; [|done].
  by rewrite app_nil_r.
Qed.

(** Layers that all answer [next()] are walked in order, to the end. *)
Lemma call_next_all_pass depth : ∀ idx,
  (∀ layer, layer ∈ stack_ → handle_request layer = [VUndefined]) →
  length stack_ ≤ depth + idx →
  idx ≤ length stack_ →
  call_next stack_ req res depth idx VUndefined
  = Some (S (length stack_),
          request_events req res idx (drop idx stack_)
          ++ [EvDone [VUndefined]]).
Proof.
  induction depth as [|depth IH]; intros idx Hpass Hd Hidx.
  - assert (idx = length stack_) as -> by lia.
    simpl. rewrite next_falsy by done.
    rewrite (lookup_ge_None_2 stack_ (length stack_)) by lia.
    by rewrite drop_all.
  - simpl. rewrite next_falsy by done.
    destruct (stack_ !! idx) as [layer|] eqn:El.
    + rewrite (Hpass layer) by (by eapply list_elem_of_lookup_2).
      rewrite run_calls_single.
      rewrite IH; [|done|lia|].
      * simpl. by rewrite (drop_S _ _ _ El).
      * apply lookup_lt_Some in El. lia.
    + apply lookup_ge_None_1 in El.
      assert (idx = length stack_) as -> by lia.
      by rewrite drop_all.
Qed.


Lemma sentinel_truthy v s :
  strict_eq_string v s = true → s ≠ "" → truthy v = true.
Proof.
  destruct v; simpl; try done. intros Heq Hs.
  apply String.eqb_eq in Heq as ->.
  apply negb_true_iff, String.eqb_neq. done.
Qed.

(** What [done] gets when the stack is exhausted is an outcome. *)
Lemma done_outcome_exhausted err :
  truthy err && strict_eq_string err "route" = false →
  truthy err && strict_eq_string err "router" = false →
  ∃ o, done_outcome [err] = Some o.
Proof.
  intros E1 E2. simpl.
  destruct (strict_eq_string err "router") eqn:E3.
  { by rewrite (sentinel_truthy _ _ E3) in E2. }
  destruct (strict_eq_string err "route") eqn:E4.
  { by rewrite (sentinel_truthy _ _ E4) in E1. }
  destruct (truthy err); by eexists.
Qed.



Lemma run_calls_carries (k : nat → value → option (nat * list event))
    calls :
  (∀ idx err idx' t, k idx err = Some (idx', t) →
     Forall (carries req res) t) →
  ∀ idx idx' t, run_calls k idx calls = Some (idx', t) →
    Forall (carries req res) t.
Proof.
  intros Hk. induction calls as [|err calls IH]; intros idx idx' t Hrun.
  - by simplify_eq/=.
  - simpl in Hrun.
    destruct (k idx err) as [[idx1 t1]|] eqn:E1; [|done].
    simpl in Hrun.
    destruct (run_calls k idx1 calls) as [[idx2 t2]|] eqn:E2; [|done].
    simplify_eq/=. apply Forall_app. split; [by eapply Hk | by eapply IH].
Qed.

(** Every layer is handed the request and the response of the call. *)
Lemma call_next_carries depth : ∀ idx err idx' t,
  call_next stack_ req res depth idx err = Some (idx', t) →
  Forall (carries req res) t.
Proof.
  induction depth as [|depth IH]; intros idx err idx' t Hcall;
    simpl in Hcall;
    destruct (next stack_ idx err) as [idx1 [args|layer|layer e]];
    simplify_eq/=.
  - by repeat constructor.
  - by repeat constructor.
  - destruct (run_calls _ idx1 (handle_request layer))
      as [[idx2 t2]|] eqn:E; simplify_eq/=.
    constructor; [done|]. by eapply run_calls_carries.
  - destruct (run_calls _ idx1 (handle_error layer e))
      as [[idx2 t2]|] eqn:E; simplify_eq/=.
    constructor; [done|]. by eapply run_calls_carries.
Qed.

Lemma length_le_one_inv {A} (l : list A) :
  length l ≤ 1 → l = [] ∨ ∃ x, l = [x].
Proof.
  destruct l as [|x [|??]]; simpl; [by left|right; by exists x|lia].
Qed.

(** Without a second call from any layer invoked, a call of the
    continuation unfolds into a chain. *)
Lemma call_next_chain depth : ∀ idx err idx' t,
  call_next stack_ req res depth idx err = Some (idx', t) →
  no_second_call t →
  chain stack_ req res idx err t.
Proof.
  induction depth as [|depth IH]; intros idx err idx' t Hcall Honce;
    simpl in Hcall;
    destruct (next stack_ idx err) as [idx1 [args|layer|layer e]] eqn:En;
    try discriminate;
    try (injection Hcall as <- <-; by econstructor).
  - destruct (run_calls _ idx1 (handle_request layer))
      as [[idx2 t2]|] eqn:Er; [|done].
    injection Hcall as <- <-.
    apply Forall_cons in Honce as [Hreq Honce].
    destruct (length_le_one_inv _ Hreq) as [E|[w E]]; rewrite E in Er.
    + injection Er as <- <-. by econstructor.
    + rewrite run_calls_single in Er.
      eapply chain_request_call; [done..|]. by eapply IH.
  - destruct (run_calls _ idx1 (handle_error layer e))
      as [[idx2 t2]|] eqn:Er; [|done].
    injection Hcall as <- <-.
    apply Forall_cons in Honce as [Herr Honce].
    destruct (length_le_one_inv _ Herr) as [E|[w E]]; rewrite E in Er.
    + injection Er as <- <-. by econstructor.
    + rewrite run_calls_single in Er.
      eapply chain_error_call; [done..|]. by eapply IH.
Qed.

(** In a chain, a layer that answers with a call that goes straight to
    [done] is the last layer invoked: the layers invoked are those from
    the start of the chain up to it, and [done] is called once. *)
Lemma chain_stops idx err t e i w args :
  chain stack_ req res idx err t →
  e ∈ t →
  event_calls e = Some (i, [w]) →
  (∀ j, next stack_ j w = (j, CallDone args)) →
  idx ≤ i
  ∧ invoked t = seq idx (S i - idx)
  ∧ done_calls t = [args].
Proof.
  intros Hchain He Hcalls Hw.
  induction Hchain as
    [idx err idx' args' En
    |idx err idx' layer En Hsilent
    |idx err idx' layer err' t En Hcall Hchain IH
    |idx err idx' layer e' En Hsilent
    |idx err idx' layer e' err' t En Hcall Hchain IH].
  - apply list_elem_of_singleton in He as ->. done.
  - apply list_elem_of_singleton in He as ->. simpl in Hcalls. congruence.
  - apply next_invokes_in_range in En as [_ ->]; [|done].
    apply elem_of_cons in He as [->|He].
    + simpl in Hcalls. assert (err' = w) as -> by congruence.
      simplify_eq.
      inversion Hchain as [? ? ? ? En'| | | |];
        rewrite Hw in *; simplify_eq.
      split; [done|]. replace (S i - i) with 1 by lia. done.
    + destruct (IH He) as (Hle & Hinv & Hdone).
      split; [lia|]. split; [|done]. simpl. rewrite Hinv.
      replace (S i - idx) with (S (S i - S idx)) by lia. done.
  - apply list_elem_of_singleton in He as ->. simpl in Hcalls. congruence.
  - apply next_invokes_in_range in En as [_ ->]; [|done].
    apply elem_of_cons in He as [->|He].
    + simpl in Hcalls. assert (err' = w) as -> by congruence.
      simplify_eq.
      inversion Hchain as [? ? ? ? En'| | | |];
        rewrite Hw in *; simplify_eq.
      split; [done|]. replace (S i - i) with 1 by lia. done.
    + destruct (IH He) as (Hle & Hinv & Hdone).
      split; [lia|]. split; [|done]. simpl. rewrite Hinv.
      replace (S i - idx) with (S (S i - S idx)) by lia. done.
Qed.






End DispatchRuns.

(** ** The claims on dispatch *)

(** A dispatch on a route of the store returns, and leaves the store as it
    found it. *)
Lemma dispatch_total (this : loc) (req : Request) (res : Response)
    (h : heap) (r : Route) :
  h !! this = Some r →
  ∃ req' t, dispatch this req res h = Some (h, req', t).
Proof.
  intros Hr. unfold dispatch. rewrite Hr. simpl.
  case_decide; [by eexists _, _|].
  destruct (call_next_total (stack r)
              (<["route" := route_ref this]> req) res (length (stack r))
              0 VUndefined ltac:(lia))
    as (idx' & t & -> & _).
  by eexists _, _.
Qed.

(** C7.  A route whose stack is empty: the whole of [dispatch] is one call
    [done()], with no argument; no layer is invoked, and store and request
    are left as they were. *)
Theorem dispatch_empty_stack (this : loc) (req : Request) (res : Response)
    (h : heap) (r : Route) :
  h !! this = Some r →
  stack r = [] →
  dispatch this req res h = Some (h, req, [EvDone []]).
Proof.
  intros Hr Hs. unfold dispatch. rewrite Hr. simpl. rewrite Hs. done.
Qed.

Lemma dispatch_empty_stack_witness :
  dispatch 5 ∅ ∅ {[ 5 := Route_new "/" ]}
  = Some ({[ 5 := Route_new "/" ]}, ∅, [EvDone []]).
Proof.
  apply (dispatch_empty_stack 5 ∅ ∅ {[ 5 := Route_new "/" ]}
           (Route_new "/")).
  - apply lookup_singleton_eq.
  - reflexivity.
Defined.

(** A call of the continuation with ['route'], at whatever cursor and
    nesting depth it is made, calls [done()] with no argument and nothing
    else: no layer is invoked and the cursor stays where it was. *)
Lemma call_next_route (stack_ : list Layer) (req : Request)
    (res : Response) (depth idx : nat) :
  call_next stack_ req res depth idx (VString "route")
  = Some (idx, [EvDone []]).
Proof. by destruct depth. Qed.

(** The same for ['router'], which is handed on to [done]. *)
Lemma call_next_router (stack_ : list Layer) (req : Request)
    (res : Response) (depth idx : nat) :
  call_next stack_ req res depth idx (VString "router")
  = Some (idx, [EvDone [VString "router"]]).
Proof. by destruct depth. Qed.

(** A dispatch in which no layer calls its continuation twice stops at the
    layer whose call goes straight to [done]. *)
Lemma dispatch_stops (this : loc) (req : Request) (res : Response)
    (h h' : heap) (r : Route) (req' : Request) (t : list event)
    (e : event) (i : nat) (calls : list value) (w : value)
    (args : list value) :
  h !! this = Some r →
  dispatch this req res h = Some (h', req', t) →
  no_second_call t →
  e ∈ t →
  event_calls e = Some (i, calls) →
  w ∈ calls →
  (∀ j, next (stack r) j w = (j, CallDone args)) →
  invoked t = seq 0 (S i) ∧ done_calls t = [args].
Proof.
  intros Hr Hd Honce He Hcalls Hin Hw.
  assert (calls = [w]) as ->.
  { pose proof (proj1 (Forall_forall _ _) Honce e He) as Hone.
    unfold answers_once in Hone. rewrite Hcalls in Hone.
    destruct (length_le_one_inv _ Hone) as [->|[w' ->]].
    - by apply elem_of_nil in Hin.
    - by apply list_elem_of_singleton in Hin as ->. }
  unfold dispatch in Hd. rewrite Hr in Hd. simpl in Hd. case_decide.
  - simplify_eq. apply list_elem_of_singleton in He as ->. done.
  - destruct (call_next _ _ _ _ _ _) as [[idx' t']|] eqn:Ec; simplify_eq/=.
    apply call_next_chain in Ec; [|done].
    destruct (chain_stops _ _ _ _ _ _ _ _ _ _ Ec He Hcalls Hw)
      as (_ & Hinv & Hdone).
    by rewrite Nat.sub_0_r in Hinv.
Qed.

(** C3, as stated, fails: the layer at position 1 calls its continuation
    with ['route'], and the layer at position 2 is invoked all the same,
    by the second call that the layer at position 0 makes to its
    continuation; [done] is called twice. *)
Lemma dispatch_route_resumed :
  ∃ h' req' t,
    dispatch 5 ∅ ∅
      {[ 5 := {| path := "/";
                 stack := [twice_layer; route_layer; pass_layer] |} ]}
    = Some (h', req', t)
    ∧ EvRequest 1 route_layer req' ∅ ∈ t
    ∧ invoked t = [0; 1; 2]
    ∧ done_calls t = [[]; [VUndefined]].
Proof.
  eexists _, _, _. split; [reflexivity|]. split_and!; [|done..].
  apply list_elem_of_further, list_elem_of_here.
Qed.

(** C3, amended.  In a dispatch in which no layer calls its continuation
    more than once, if the layer at position [i] calls its continuation
    with ['route'], the layers invoked are those at positions [0 .. i] and
    no other, and [done] is called once, with no argument.  What counts is
    what the layers do in this dispatch: a layer that would call twice but
    is never invoked does not matter. *)
Theorem dispatch_route_stops (this : loc) (req : Request) (res : Response)
    (h h' : heap) (r : Route) (req' : Request) (t : list event)
    (e : event) (i : nat) (calls : list value) :
  h !! this = Some r →
  dispatch this req res h = Some (h', req', t) →
  no_second_call t →
  e ∈ t →
  event_calls e = Some (i, calls) →
  VString "route" ∈ calls →
  invoked t = seq 0 (S i) ∧ done_calls t = [[]].
Proof.
  intros Hr Hd Honce He Hcalls Hin.
  by eapply dispatch_stops.
Qed.

Lemma dispatch_route_stops_witness :
  invoked [EvRequest 0 pass_layer (<["route" := route_ref 5]> ∅) ∅;
           EvRequest 1 route_layer (<["route" := route_ref 5]> ∅) ∅;
           EvDone []]
  = seq 0 2
  ∧ done_calls [EvRequest 0 pass_layer (<["route" := route_ref 5]> ∅) ∅;
                EvRequest 1 route_layer (<["route" := route_ref 5]> ∅) ∅;
                EvDone []]
    = [[]].
Proof.
  apply (dispatch_route_stops 5 ∅ ∅
           {[ 5 := {| path := "/";
                      stack := [pass_layer; route_layer; twice_layer] |} ]}
           {[ 5 := {| path := "/";
                      stack := [pass_layer; route_layer; twice_layer] |} ]}
           {| path := "/"; stack := [pass_layer; route_layer; twice_layer] |}
           (<["route" := route_ref 5]> ∅) _
           (EvRequest 1 route_layer (<["route" := route_ref 5]> ∅) ∅) 1
           [VString "route"]).
  - apply lookup_singleton_eq.
  - reflexivity.
  - unfold no_second_call, answers_once. repeat constructor.
  - apply list_elem_of_further, list_elem_of_here.
  - reflexivity.
  - apply list_elem_of_here.
Defined.

(** C4, as stated, fails: the layer at position 1 calls its continuation
    with ['router'], and the layer at position 2 is executed all the same,
    by the second call that the layer at position 0 makes to its
    continuation; [done] is called with ['router'] and then once more. *)
Lemma dispatch_router_resumed :
  ∃ h' req' t,
    dispatch 5 ∅ ∅
      {[ 5 := {| path := "/";
                 stack := [twice_layer; router_layer; pass_layer] |} ]}
    = Some (h', req', t)
    ∧ EvRequest 1 router_layer req' ∅ ∈ t
    ∧ invoked t = [0; 1; 2]
    ∧ done_calls t = [[VString "router"]; [VUndefined]].
Proof.
  eexists _, _, _. split; [reflexivity|]. split_and!; [|done..].
  apply list_elem_of_further, list_elem_of_here.
Qed.

(** C4, amended.  In a dispatch in which no layer calls its continuation
    more than once, if a layer calls its continuation with ['router'], no
    layer after it is executed, and [done] is called once, with exactly
    ['router'].  What counts is what the layers do in this dispatch: a
    layer that would call twice but is never invoked does not matter. *)
Theorem dispatch_router_stops (this : loc) (req : Request) (res : Response)
    (h h' : heap) (r : Route) (req' : Request) (t : list event)
    (e : event) (i : nat) (calls : list value) :
  h !! this = Some r →
  dispatch this req res h = Some (h', req', t) →
  no_second_call t →
  e ∈ t →
  event_calls e = Some (i, calls) →
  VString "router" ∈ calls →
  invoked t = seq 0 (S i) ∧ done_calls t = [[VString "router"]].
Proof.
  intros Hr Hd Honce He Hcalls Hin.
  by eapply dispatch_stops.
Qed.

Lemma dispatch_router_stops_witness :
  invoked [EvRequest 0 pass_layer (<["route" := route_ref 5]> ∅) ∅;
           EvRequest 1 router_layer (<["route" := route_ref 5]> ∅) ∅;
           EvDone [VString "router"]]
  = seq 0 2
  ∧ done_calls [EvRequest 0 pass_layer (<["route" := route_ref 5]> ∅) ∅;
                EvRequest 1 router_layer (<["route" := route_ref 5]> ∅) ∅;
                EvDone [VString "router"]]
    = [[VString "router"]].
Proof.
  apply (dispatch_router_stops 5 ∅ ∅
           {[ 5 := {| path := "/";
                      stack := [pass_layer; router_layer; twice_layer] |} ]}
           {[ 5 := {| path := "/";
                      stack := [pass_layer; router_layer; twice_layer] |} ]}
           {| path := "/"; stack := [pass_layer; router_layer; twice_layer] |}
           (<["route" := route_ref 5]> ∅) _
           (EvRequest 1 router_layer (<["route" := route_ref 5]> ∅) ∅) 1
           [VString "router"]).
  - apply lookup_singleton_eq.
  - reflexivity.
  - unfold no_second_call, answers_once. repeat constructor.
  - apply list_elem_of_further, list_elem_of_here.
  - reflexivity.
  - apply list_elem_of_here.
Defined.

(** C1.  On a non-empty stack whose layers all answer an invocation by
    calling their continuation once, without argument, [dispatch] invokes
    [handle_request] of every layer once, in the order of the stack, and
    after the last one calls [done] with no error ([err] is [undefined]). *)
Theorem dispatch_registration_order (this : loc) (req : Request)
    (res : Response) (h : heap) (r : Route) :
  h !! this = Some r →
  stack r ≠ [] →
  (∀ layer, layer ∈ stack r → handle_request layer = [VUndefined]) →
  dispatch this req res h
  = Some (h, <["route" := route_ref this]> req,
          request_events (<["route" := route_ref this]> req) res 0 (stack r)
          ++ [EvDone [VUndefined]]).
Proof.
  intros Hr Hne Hpass. unfold dispatch. rewrite Hr. simpl.
  case_decide as Hlen.
  - by apply length_zero_iff_nil in Hlen.
  - rewrite call_next_all_pass; [done|done|lia|lia].
Qed.

Lemma dispatch_registration_order_witness :
  dispatch 5 ∅ ∅
    {[ 5 := {| path := "/"; stack := [pass_layer; pass_layer] |} ]}
  = Some ({[ 5 := {| path := "/"; stack := [pass_layer; pass_layer] |} ]},
          <["route" := route_ref 5]> ∅,
          request_events (<["route" := route_ref 5]> ∅) ∅ 0
            [pass_layer; pass_layer]
          ++ [EvDone [VUndefined]]).
Proof.
  apply (dispatch_registration_order 5 ∅ ∅ _
           {| path := "/"; stack := [pass_layer; pass_layer] |}).
  - apply lookup_singleton_eq.
  - discriminate.
  - intros layer Hin. simpl in Hin.
    apply elem_of_cons in Hin as [->|Hin]; [reflexivity|].
    apply elem_of_cons in Hin as [->|Hin]; [reflexivity|].
    by apply elem_of_nil in Hin.
Defined.


(** Membership in a list written out, one goal per element. *)
Ltac list_cases H :=
  repeat match type of H with
         | _ ∈ _ :: _ => apply elem_of_cons in H as [->|H]
         | _ ∈ [] => by apply elem_of_nil in H
         end.







(** C9, as stated, fails: on an empty stack [dispatch] returns before the
    assignment, and the request is left without the back-reference. *)
Lemma dispatch_empty_no_backref :
  ∃ h' req' t,
    dispatch 5 ∅ ∅ {[ 5 := Route_new "/" ]} = Some (h', req', t)
    ∧ req' !! "route" = None.
Proof. eexists _, _, _. split; reflexivity. Qed.

(** C9, amended.  On a non-empty stack [dispatch] sets [req.route] to the
    route and changes nothing else of the request; every layer invoked is
    handed the request with the back-reference in place, and the response
    as it was given.  On an empty stack the request is left untouched. *)
Theorem dispatch_backref (this : loc) (req : Request) (res : Response)
    (h : heap) (r : Route) :
  h !! this = Some r →
  (stack r ≠ [] →
   ∃ t, dispatch this req res h
        = Some (h, <["route" := route_ref this]> req, t)
        ∧ Forall (carries (<["route" := route_ref this]> req) res) t)
  ∧ (stack r = [] →
     ∃ t, dispatch this req res h = Some (h, req, t)).
Proof.
  intros Hr. unfold dispatch. rewrite Hr. simpl. split.
  - intros Hne. case_decide as Hlen.
    { by apply length_zero_iff_nil in Hlen. }
    destruct (call_next_total (stack r)
                (<["route" := route_ref this]> req) res (length (stack r))
                0 VUndefined ltac:(lia))
      as (idx' & t & Et & _).
    rewrite Et. simpl. exists t. split; [done|].
    by eapply call_next_carries.
  - intros ->. by eexists.
Qed.

Lemma dispatch_backref_witness :
  ∃ t, dispatch 5 ∅ ∅
         {[ 5 := {| path := "/"; stack := [pass_layer; send_layer] |} ]}
       = Some ({[ 5 := {| path := "/";
                          stack := [pass_layer; send_layer] |} ]},
               <["route" := route_ref 5]> ∅, t)
       ∧ Forall (carries (<["route" := route_ref 5]> ∅) ∅) t.
Proof.
  apply (dispatch_backref 5 ∅ ∅ _
           {| path := "/"; stack := [pass_layer; send_layer] |}).
  - apply lookup_singleton_eq.
  - discriminate.
Defined.

(** ** The scenarios of the specification *)

(** Scenario B: the error raised by the first handler goes to the
    error-capable layer, which clears it; [done] gets no error. *)
Example scenario_b :
  dispatch 5 ∅ ∅
    {[ 5 := {| path := "/"; stack := [boom_layer; recover_layer] |} ]}
  = Some ({[ 5 := {| path := "/"; stack := [boom_layer; recover_layer] |} ]},
          <["route" := route_ref 5]> ∅,
          [EvRequest 0 boom_layer (<["route" := route_ref 5]> ∅) ∅;
           EvError 1 recover_layer boom (<["route" := route_ref 5]> ∅) ∅;
           EvDone [VUndefined]]).
Proof. vm_compute. reflexivity. Qed.

(** A layer invoked in the mode it does not support skips itself: the
    error-capable layer is passed over in normal mode, the normal layer in
    error mode, and the error comes out at [done] as it went in. *)
Example skipped_in_either_mode :
  dispatch 5 ∅ ∅
    {[ 5 := {| path := "/";
               stack := [recover_layer; boom_layer; pass_layer] |} ]}
  = Some ({[ 5 := {| path := "/";
                     stack := [recover_layer; boom_layer; pass_layer] |} ]},
          <["route" := route_ref 5]> ∅,
          [EvRequest 0 recover_layer (<["route" := route_ref 5]> ∅) ∅;
           EvRequest 1 boom_layer (<["route" := route_ref 5]> ∅) ∅;
           EvError 2 pass_layer boom (<["route" := route_ref 5]> ∅) ∅;
           EvDone [boom]]).
Proof. vm_compute. reflexivity. Qed.

(** Nested arrays of handlers are registered in reading order. *)
Example flatten_nested :
  flatten [handler_a; VArray [handler_b; VArray [VNull]]; handler_a]
  = [handler_a; handler_b; VNull; handler_a].
Proof. reflexivity. Qed.

(** ** Registration *)

Section RegistrationFacts.

Context (Layer_ : string → gmap string value → value → Layer).
Context (throw_ : value → exn).

(** The loop over handles that are all functions pushes a layer for
    each, in order. *)
Lemma handles_loop_functions handles : ∀ stack_,
  Forall (λ v, is_function v = true) handles →
  handles_loop Layer_ throw_ handles stack_
  = (stack_ ++ (Layer_ "/" ∅ <$> handles), None).
Proof.
  induction handles as [|handle handles IH]; intros stack_ Hfun.
  - simpl. by rewrite app_nil_r.
  - apply Forall_cons in Hfun as [Hf Hfun]. simpl. rewrite Hf. simpl.
    rewrite IH by done. by rewrite <-app_assoc.
Qed.

(** The loop stops at the first handle that is not a function, with the
    layers of the handles before it pushed. *)
Lemma handles_loop_throws before bad after : ∀ stack_,
  Forall (λ v, is_function v = true) before →
  is_function bad = false →
  handles_loop Layer_ throw_ (before ++ bad :: after) stack_
  = (stack_ ++ (Layer_ "/" ∅ <$> before), Some (throw_ bad)).
Proof.
  induction before as [|handle before IH]; intros stack_ Hfun Hbad.
  - simpl. rewrite Hbad. simpl. by rewrite app_nil_r.
  - apply Forall_cons in Hfun as [Hf Hfun]. simpl. rewrite Hf. simpl.
    rewrite IH by done. by rewrite <-app_assoc.
Qed.

(** A list of handles is all functions, or splits at the first that is
    not. *)
Lemma handles_split (handles : list value) :
  Forall (λ v, is_function v = true) handles
  ∨ ∃ before bad after,
      handles = before ++ bad :: after
      ∧ Forall (λ v, is_function v = true) before
      ∧ is_function bad = false.
Proof.
  induction handles as [|handle handles IH]; [by left|].
  destruct (is_function handle) eqn:Hf.
  - destruct IH as [IH|(before & bad & after & -> & Hb & Hbad)].
    + left. by constructor.
    + right. exists (handle :: before), bad, after.
      split_and!; [done| by constructor | done].
  - right. by exists [], handle, handles.
Qed.

(** Whatever the arguments, the loop only appends. *)
Lemma handles_loop_appends handles stack_ :
  ∃ new thrown,
    handles_loop Layer_ throw_ handles stack_ = (stack_ ++ new, thrown).
Proof.
  destruct (handles_split handles)
    as [Hfun|(before & bad & after & -> & Hfun & Hbad)].
  - rewrite handles_loop_functions by done. by eexists _, _.
  - rewrite handles_loop_throws by done. by eexists _, _.
Qed.

Lemma register_appends this args (h : heap) r :
  h !! this = Some r →
  ∃ new c,
    register Layer_ throw_ this args h
    = Some (<[this := {| path := path r; stack := stack r ++ new |}]> h,
            c).
Proof.
  intros Hr. unfold register. rewrite Hr. simpl.
  destruct (handles_loop_appends (flatten args) (stack r))
    as (new & thrown & ->).
  exists new. destruct thrown; by eexists.
Qed.

Lemma register_functions this args (h : heap) r :
  h !! this = Some r →
  Forall (λ v, is_function v = true) (flatten args) →
  register Layer_ throw_ this args h
  = Some (<[this := {| path := path r;
                       stack := stack r
                                ++ (Layer_ "/" ∅ <$> flatten args) |}]> h,
          Returns (route_ref this)).
Proof.
  intros Hr Hfun. unfold register. rewrite Hr. simpl.
  by rewrite handles_loop_functions.
Qed.

Lemma register_throws this args (h : heap) r before bad after :
  h !! this = Some r →
  flatten args = before ++ bad :: after →
  Forall (λ v, is_function v = true) before →
  is_function bad = false →
  register Layer_ throw_ this args h
  = Some (<[this := {| path := path r;
                       stack := stack r
                                ++ (Layer_ "/" ∅ <$> before) |}]> h,
          Throws (throw_ bad)).
Proof.
  intros Hr Hflat Hfun Hbad. unfold register. rewrite Hr. simpl.
  by rewrite Hflat, handles_loop_throws.
Qed.

End RegistrationFacts.

(** C8.  A registration call, [all] or [get], whether it returns or
    throws, leaves in the stack every layer that was there, at the position
    it had, and only adds layers after them; [dispatch] leaves the store,
    and so the stack, as it found it. *)
Theorem stack_append_only
    (Layer_ : string → gmap string value → value → Layer)
    (this : loc) (args : list value) (req : Request) (res : Response)
    (h : heap) (r : Route) :
  h !! this = Some r →
  (∃ new c,
     all Layer_ this args h
     = Some (<[this := {| path := path r; stack := stack r ++ new |}]> h, c)
     ∧ ∀ i layer, stack r !! i = Some layer →
                  (stack r ++ new) !! i = Some layer)
  ∧ (∃ new c,
       get Layer_ this args h
       = Some (<[this := {| path := path r; stack := stack r ++ new |}]> h,
               c)
       ∧ ∀ i layer, stack r !! i = Some layer →
                    (stack r ++ new) !! i = Some layer)
  ∧ ∃ req' t, dispatch this req res h = Some (h, req', t).
Proof.
  intros Hr. split_and!.
  - destruct (register_appends Layer_ all_throw this args h r Hr)
      as (new & c & E).
    exists new, c. split; [done|]. intros i layer Hi.
    by apply lookup_app_l_Some.
  - destruct (register_appends Layer_ get_throw this args h r Hr)
      as (new & c & E).
    exists new, c. split; [done|]. intros i layer Hi.
    by apply lookup_app_l_Some.
  - by eapply dispatch_total.
Qed.

Lemma stack_append_only_witness :
  (∃ new c,
     all sample_Layer 5 [handler_b]
       {[ 5 := {| path := "/"; stack := [send_layer] |} ]}
     = Some (<[5 := {| path := "/"; stack := [send_layer] ++ new |}]>
               {[ 5 := {| path := "/"; stack := [send_layer] |} ]}, c)
     ∧ ∀ i layer, [send_layer] !! i = Some layer →
                  ([send_layer] ++ new) !! i = Some layer)
  ∧ (∃ new c,
       get sample_Layer 5 [handler_b]
         {[ 5 := {| path := "/"; stack := [send_layer] |} ]}
       = Some (<[5 := {| path := "/"; stack := [send_layer] ++ new |}]>
                 {[ 5 := {| path := "/"; stack := [send_layer] |} ]}, c)
       ∧ ∀ i layer, [send_layer] !! i = Some layer →
                    ([send_layer] ++ new) !! i = Some layer)
  ∧ ∃ req' t,
      dispatch 5 ∅ ∅ {[ 5 := {| path := "/"; stack := [send_layer] |} ]}
      = Some ({[ 5 := {| path := "/"; stack := [send_layer] |} ]}, req', t).
Proof.
  apply (stack_append_only sample_Layer 5 [handler_b] ∅ ∅
           {[ 5 := {| path := "/"; stack := [send_layer] |} ]}
           {| path := "/"; stack := [send_layer] |}).
  apply lookup_singleton_eq.
Defined.

(** C10.  A call of [all] or [get] either throws or returns the route
    object it was called on; it returns it whenever every flattened
    argument is a function, and in particular when there is none, in which
    case the store, and so the stack, is left as it was. *)
Theorem registration_returns_this
    (Layer_ : string → gmap string value → value → Layer)
    (this : loc) (args : list value) (h : heap) (r : Route) :
  h !! this = Some r →
  (∃ h' c, all Layer_ this args h = Some (h', c)
           ∧ ((∀ e, c ≠ Throws e) → c = Returns (route_ref this))
           ∧ (Forall (λ v, is_function v = true) (flatten args) →
              c = Returns (route_ref this)))
  ∧ (∃ h' c, get Layer_ this args h = Some (h', c)
             ∧ ((∀ e, c ≠ Throws e) → c = Returns (route_ref this))
             ∧ (Forall (λ v, is_function v = true) (flatten args) →
                c = Returns (route_ref this)))
  ∧ (flatten args = [] →
     all Layer_ this args h = Some (h, Returns (route_ref this))
     ∧ get Layer_ this args h = Some (h, Returns (route_ref this))).
Proof.
  intros Hr.
  assert (∀ throw_,
    ∃ h' c, register Layer_ throw_ this args h = Some (h', c)
            ∧ ((∀ e, c ≠ Throws e) → c = Returns (route_ref this))
            ∧ (Forall (λ v, is_function v = true) (flatten args) →
               c = Returns (route_ref this))) as Hreg.
  { intros throw_.
    destruct (handles_split (flatten args))
      as [Hfun|(before & bad & after & Hflat & Hfun & Hbad)].
    - rewrite (register_functions _ _ _ _ _ r) by done.
      by eexists _, _.
    - rewrite (register_throws _ _ _ _ _ r before bad after) by done.
      eexists _, _. split_and!; [done| |].
      + intros Hno. by destruct (Hno (throw_ bad)).
      + rewrite Hflat. intros Hall.
        apply Forall_app in Hall as [_ Hall].
        apply Forall_cons in Hall as [Hb _]. congruence. }
  assert (∀ throw_, flatten args = [] →
    register Layer_ throw_ this args h = Some (h, Returns (route_ref this)))
    as Hnone.
  { intros throw_ Hflat.
    rewrite (register_functions _ _ _ _ _ r) by (by rewrite ?Hflat).
    rewrite Hflat. simpl. rewrite app_nil_r.
    rewrite insert_id; [done|]. by destruct r. }
  split_and!; [apply Hreg | apply Hreg |].
  intros Hflat. split; by apply Hnone.
Qed.

Lemma registration_returns_this_witness :
  (∃ h' c, all sample_Layer 5 [handler_a; VArray [handler_b]]
             {[ 5 := Route_new "/" ]} = Some (h', c)
           ∧ ((∀ e, c ≠ Throws e) → c = Returns (route_ref 5))
           ∧ (Forall (λ v, is_function v = true)
                (flatten [handler_a; VArray [handler_b]]) →
              c = Returns (route_ref 5)))
  ∧ (∃ h' c, get sample_Layer 5 [handler_a; VArray [handler_b]]
               {[ 5 := Route_new "/" ]} = Some (h', c)
             ∧ ((∀ e, c ≠ Throws e) → c = Returns (route_ref 5))
             ∧ (Forall (λ v, is_function v = true)
                  (flatten [handler_a; VArray [handler_b]]) →
                c = Returns (route_ref 5)))
  ∧ (flatten [handler_a; VArray [handler_b]] = [] →
     all sample_Layer 5 [handler_a; VArray [handler_b]]
       {[ 5 := Route_new "/" ]}
     = Some ({[ 5 := Route_new "/" ]}, Returns (route_ref 5))
     ∧ get sample_Layer 5 [handler_a; VArray [handler_b]]
         {[ 5 := Route_new "/" ]}
       = Some ({[ 5 := Route_new "/" ]}, Returns (route_ref 5))).
Proof.
  apply (registration_returns_this sample_Layer 5
           [handler_a; VArray [handler_b]] {[ 5 := Route_new "/" ]}
           (Route_new "/")).
  apply lookup_singleton_eq.
Defined.

(** C2, as stated, fails: the handlers that come before the value that is
    not a function have their layers pushed before the call throws. *)
Lemma all_throws_after_pushing :
  ∃ h' e r',
    all sample_Layer 5 [handler_a; VNumber 42] {[ 5 := Route_new "/" ]}
    = Some (h', Throws e)
    ∧ h' !! 5 = Some r'
    ∧ stack r' = [pass_layer].
Proof.
  eexists _, _, _. split; [reflexivity|]. split; reflexivity.
Qed.

(** C2, amended.  When the flattened argument list holds a value that is
    not a function, the registration call itself throws: [all] a
    [TypeError], [get] an error, with a message that names the type of
    the first such value.  The functions before that value have their
    layers appended to the stack, in order; no layer is added for that
    value or for any argument after it. *)
Theorem registration_throws
    (Layer_ : string → gmap string value → value → Layer)
    (this : loc) (args : list value) (h : heap) (r : Route)
    (before : list value) (bad : value) (after : list value) :
  h !! this = Some r →
  flatten args = before ++ bad :: after →
  Forall (λ v, is_function v = true) before →
  is_function bad = false →
  all Layer_ this args h
  = Some (<[this := {| path := path r;
                       stack := stack r ++ (Layer_ "/" ∅ <$> before) |}]> h,
          Throws (TypeError
                    ("Route.all() requires a callback function but got a "
                     +:+ toString_call bad)))
  ∧ ∃ e,
      get Layer_ this args h
      = Some (<[this := {| path := path r;
                           stack := stack r
                                    ++ (Layer_ "/" ∅ <$> before) |}]> h,
              Throws e)
      ∧ exn_message e
        = "Route.get() requires a callback function but got a "
          +:+ toString_call bad.
Proof.
  intros Hr Hflat Hfun Hbad. split.
  - unfold all.
    by rewrite (register_throws _ _ _ _ _ r before bad after).
  - unfold get.
    rewrite (register_throws _ _ _ _ _ r before bad after) by done.
    by eexists.
Qed.

Lemma registration_throws_witness :
  all sample_Layer 5 [handler_a; VArray [VNull; handler_b]]
    {[ 5 := Route_new "/" ]}
  = Some (<[5 := {| path := "/";
                    stack := [] ++ (sample_Layer "/" ∅ <$> [handler_a]) |}]>
            {[ 5 := Route_new "/" ]},
          Throws (TypeError
                    ("Route.all() requires a callback function but got a "
                     +:+ toString_call VNull)))
  ∧ ∃ e,
      get sample_Layer 5 [handler_a; VArray [VNull; handler_b]]
        {[ 5 := Route_new "/" ]}
      = Some (<[5 := {| path := "/";
                        stack := [] ++ (sample_Layer "/" ∅
                                          <$> [handler_a]) |}]>
                {[ 5 := Route_new "/" ]},
              Throws e)
      ∧ exn_message e
        = "Route.get() requires a callback function but got a "
          +:+ toString_call VNull.
Proof.
  apply (registration_throws sample_Layer 5
           [handler_a; VArray [VNull; handler_b]] {[ 5 := Route_new "/" ]}
           (Route_new "/") [handler_a] VNull [handler_b]).
  - apply lookup_singleton_eq.
  - reflexivity.
  - repeat constructor.
  - reflexivity.
Defined.

(** * Further properties of the route *)

Section DispatchInvariants.

Context (stack_ : list Layer) (req : Request) (res : Response).

Lemma seq_segments a b c :
  a ≤ b → b ≤ c → seq a (b - a) ++ seq b (c - b) = seq a (c - a).
Proof.
  intros Hab Hbc. replace (c - a) with ((b - a) + (c - b)) by lia.
  rewrite seq_app. by replace (a + (b - a)) with b by lia.
Qed.

(** The positions invoked by a call of the continuation are those the
    cursor passes over inside the stack. *)
Lemma run_calls_invoked (k : nat → value → option (nat * list event))
    calls :
  (∀ idx err idx' t, k idx err = Some (idx', t) →
     idx ≤ idx'
     ∧ invoked t = seq (idx `min` length stack_)
                     (idx' `min` length stack_ - idx `min` length stack_)
     ∧ Forall (invokes_from stack_) t) →
  ∀ idx idx' t, run_calls k idx calls = Some (idx', t) →
    idx ≤ idx'
    ∧ invoked t = seq (idx `min` length stack_)
                    (idx' `min` length stack_ - idx `min` length stack_)
    ∧ Forall (invokes_from stack_) t.
Proof.
  intros Hk. induction calls as [|err calls IH]; intros idx idx' t Hrun.
  - simplify_eq/=. rewrite Nat.sub_diag. done.
  - simpl in Hrun.
    destruct (k idx err) as [[idx1 t1]|] eqn:E1; [|done].
    simpl in Hrun.
    destruct (run_calls k idx1 calls) as [[idx2 t2]|] eqn:E2; [|done].
    destruct (Hk _ _ _ _ E1) as (Hle1 & Hinv1 & Hfrom1).
    destruct (IH _ _ _ E2) as (Hle2 & Hinv2 & Hfrom2).
    simplify_eq/=. split_and!; [lia| |by apply Forall_app].
    unfold invoked in *. rewrite omap_app, Hinv1, Hinv2.
    apply seq_segments; lia.
Qed.

Lemma next_done_invoked idx err idx' args :
  next stack_ idx err = (idx', CallDone args) →
  idx ≤ idx'
  ∧ invoked [EvDone args]
    = seq (idx `min` length stack_)
        (idx' `min` length stack_ - idx `min` length stack_)
  ∧ Forall (invokes_from stack_) [EvDone args].
Proof.
  intros En. pose proof (next_cursor _ _ _ _ _ En).
  split; [lia|]. split; [|by repeat constructor].
  unfold next in En. repeat case_match; simplify_eq;
    try (rewrite Nat.sub_diag; done).
  assert (length stack_ ≤ idx) by by apply lookup_ge_None_1.
  by replace (S idx `min` length stack_ - idx `min` length stack_)
    with 0 by lia.
Qed.

Lemma invoked_cons idx layer idx' t e :
  stack_ !! idx = Some layer →
  invoked [e] = [idx] →
  invokes_from stack_ e →
  S idx ≤ idx' →
  invoked t = seq (S idx `min` length stack_)
                (idx' `min` length stack_ - S idx `min` length stack_) →
  Forall (invokes_from stack_) t →
  idx ≤ idx'
  ∧ invoked (e :: t)
    = seq (idx `min` length stack_)
        (idx' `min` length stack_ - idx `min` length stack_)
  ∧ Forall (invokes_from stack_) (e :: t).
Proof.
  intros El He Hfrom Hle Hinv Hall.
  apply lookup_lt_Some in El.
  split; [lia|]. split; [|by constructor].
  change (e :: t) with ([e] ++ t). unfold invoked in *.
  rewrite omap_app, He, Hinv.
  replace (idx `min` length stack_) with idx by lia.
  replace (S idx `min` length stack_) with (S idx) by lia.
  replace (idx' `min` length stack_ - idx)
    with (S (idx' `min` length stack_ - S idx)) by lia.
  done.
Qed.

Lemma next_invokes_lookup idx err idx' a layer :
  next stack_ idx err = (idx', a) →
  a = CallHandleRequest layer ∨ (∃ e, a = CallHandleError layer e) →
  stack_ !! idx = Some layer ∧ idx' = S idx.
Proof.
  unfold next. intros En [->|[e ->]];
    repeat case_match; by simplify_eq.
Qed.

Lemma call_next_invoked depth : ∀ idx err idx' t,
  call_next stack_ req res depth idx err = Some (idx', t) →
  idx ≤ idx'
  ∧ invoked t = seq (idx `min` length stack_)
                  (idx' `min` length stack_ - idx `min` length stack_)
  ∧ Forall (invokes_from stack_) t.
Proof.
  induction depth as [|depth IH]; intros idx err idx' t Hcall;
    simpl in Hcall;
    destruct (next stack_ idx err) as [idx1 [args|layer|layer e]] eqn:En;
    try discriminate;
    try (injection Hcall as <- <-; by eapply next_done_invoked).
  - apply next_invokes_lookup with (layer := layer) in En as [El ->];
      [|by left].
    destruct (run_calls _ (S idx) (handle_request layer))
      as [[idx2 t2]|] eqn:E; [|done].
    injection Hcall as <- <-.
    destruct (run_calls_invoked _ _ IH _ _ _ E) as (Hle & Hinv & Hall).
    by eapply invoked_cons.
  - apply next_invokes_lookup with (layer := layer) in En as [El ->];
      [|right; by eexists].
    destruct (run_calls _ (S idx) (handle_error layer e))
      as [[idx2 t2]|] eqn:E; [|done].
    injection Hcall as <- <-.
    destruct (run_calls_invoked _ _ IH _ _ _ E) as (Hle & Hinv & Hall).
    by eapply invoked_cons.
Qed.

End DispatchInvariants.

(** X1.  Whatever the handlers do with their continuations, a dispatch
    invokes the layers of an initial segment of the stack, each of them
    once and in the order of the stack: the positions invoked are
    [0, 1, .., k-1] for some [k] within the stack, and the layer invoked
    at a position is the one the stack holds there. *)
Theorem dispatch_invokes_prefix (this : loc) (req : Request)
    (res : Response) (h h' : heap) (r : Route) (req' : Request)
    (t : list event) :
  h !! this = Some r →
  dispatch this req res h = Some (h', req', t) →
  ∃ k, k ≤ length (stack r)
       ∧ invoked t = seq 0 k
       ∧ Forall (invokes_from (stack r)) t.
Proof.
  intros Hr Hd. unfold dispatch in Hd. rewrite Hr in Hd. simpl in Hd.
  case_decide.
  - simplify_eq. exists 0. split_and!; [lia|done|by repeat constructor].
  - destruct (call_next _ _ _ _ _ _) as [[idx' t']|] eqn:Ec; simplify_eq/=.
    apply call_next_invoked in Ec as (_ & Hinv & Hall).
    exists (idx' `min` length (stack r)).
    split_and!; [lia| |done]. by rewrite Nat.sub_0_r in Hinv.
Qed.

Lemma dispatch_invokes_prefix_witness :
  ∃ k, k ≤ length [twice_layer; route_layer; pass_layer]
       ∧ invoked
           [EvRequest 0 twice_layer (<["route" := route_ref 5]> ∅) ∅;
            EvRequest 1 route_layer (<["route" := route_ref 5]> ∅) ∅;
            EvDone [];
            EvRequest 2 pass_layer (<["route" := route_ref 5]> ∅) ∅;
            EvDone [VUndefined]]
         = seq 0 k
       ∧ Forall (invokes_from [twice_layer; route_layer; pass_layer])
           [EvRequest 0 twice_layer (<["route" := route_ref 5]> ∅) ∅;
            EvRequest 1 route_layer (<["route" := route_ref 5]> ∅) ∅;
            EvDone [];
            EvRequest 2 pass_layer (<["route" := route_ref 5]> ∅) ∅;
            EvDone [VUndefined]].
Proof.
  refine (dispatch_invokes_prefix 5 ∅ ∅
            {[ 5 := {| path := "/";
                       stack := [twice_layer; route_layer; pass_layer] |} ]}
            {[ 5 := {| path := "/";
                       stack := [twice_layer; route_layer; pass_layer] |} ]}
            {| path := "/";
               stack := [twice_layer; route_layer; pass_layer] |}
            (<["route" := route_ref 5]> ∅) _ _ _).
  - apply lookup_singleton_eq.
  - vm_compute. reflexivity.
Defined.

Section DoneCalls.

Context (stack_ : list Layer) (req : Request) (res : Response).

Lemma done_calls_app t1 t2 :
  done_calls (t1 ++ t2) = done_calls t1 ++ done_calls t2.
Proof. apply omap_app. Qed.

Lemma next_done_outcome idx err idx' args :
  next stack_ idx err = (idx', CallDone args) →
  is_Some (done_outcome args).
Proof.
  unfold next. intros En.
  destruct (truthy err && strict_eq_string err "route") eqn:E1.
  { by simplify_eq. }
  destruct (truthy err && strict_eq_string err "router") eqn:E2.
  { apply andb_true_iff in E2 as [_ E2]. simplify_eq. simpl.
    by rewrite E2. }
  destruct (done_outcome_exhausted err E1 E2) as [o Ho].
  repeat case_match; simplify_eq. by rewrite Ho.
Qed.

Lemma run_calls_done_outcome (k : nat → value → option (nat * list event))
    calls :
  (∀ idx err idx' t, k idx err = Some (idx', t) →
     Forall (λ args, is_Some (done_outcome args)) (done_calls t)) →
  ∀ idx idx' t, run_calls k idx calls = Some (idx', t) →
    Forall (λ args, is_Some (done_outcome args)) (done_calls t).
Proof.
  intros Hk. induction calls as [|err calls IH]; intros idx idx' t Hrun.
  - injection Hrun as <- <-. constructor.
  - simpl in Hrun.
    destruct (k idx err) as [[idx1 t1]|] eqn:E1; [|done].
    simpl in Hrun.
    destruct (run_calls k idx1 calls) as [[idx2 t2]|] eqn:E2; [|done].
    injection Hrun as <- <-. rewrite done_calls_app.
    apply Forall_app. split; [by eapply Hk | by eapply IH].
Qed.

Lemma call_next_done_outcome depth : ∀ idx err idx' t,
  call_next stack_ req res depth idx err = Some (idx', t) →
  Forall (λ args, is_Some (done_outcome args)) (done_calls t).
Proof.
  induction depth as [|depth IH]; intros idx err idx' t Hcall;
    simpl in Hcall;
    destruct (next stack_ idx err) as [idx1 [args|layer|layer e]] eqn:En;
    try discriminate;
    try (injection Hcall as <- <-; repeat constructor;
         by eapply next_done_outcome).
  - destruct (run_calls _ idx1 (handle_request layer))
      as [[idx2 t2]|] eqn:E; [|done].
    injection Hcall as <- <-. simpl. by eapply run_calls_done_outcome.
  - destruct (run_calls _ idx1 (handle_error layer e))
      as [[idx2 t2]|] eqn:E; [|done].
    injection Hcall as <- <-. simpl. by eapply run_calls_done_outcome.
Qed.

(** In a chain [done] is called at most once, and nothing follows it. *)
Lemma chain_done_last idx err t :
  chain stack_ req res idx err t →
  done_calls t = []
  ∨ ∃ pre args, t = pre ++ [EvDone args] ∧ done_calls pre = [].
Proof.
  induction 1 as
    [idx err idx' args En
    |idx err idx' layer En Hsilent
    |idx err idx' layer err' t En Hcall Hchain IH
    |idx err idx' layer e En Hsilent
    |idx err idx' layer e err' t En Hcall Hchain IH].
  - right. by exists [], args.
  - by left.
  - destruct IH as [IH|(pre & args & -> & Hpre)]; [by left|].
    right. by exists (EvRequest idx layer req res :: pre), args.
  - by left.
  - destruct IH as [IH|(pre & args & -> & Hpre)]; [by left|].
    right. by exists (EvError idx layer e req res :: pre), args.
Qed.

End DoneCalls.

(** X2.  Whatever the handlers do, every call that a dispatch makes to
    [done] carries one of the three outcomes: at most one argument, which
    is never the sentinel ['route']. *)
Theorem dispatch_done_outcomes (this : loc) (req : Request)
    (res : Response) (h h' : heap) (r : Route) (req' : Request)
    (t : list event) :
  h !! this = Some r →
  dispatch this req res h = Some (h', req', t) →
  Forall (λ args, is_Some (done_outcome args)) (done_calls t).
Proof.
  intros Hr Hd. unfold dispatch in Hd. rewrite Hr in Hd. simpl in Hd.
  case_decide.
  - injection Hd as <- <- <-. by repeat constructor.
  - destruct (call_next _ _ _ _ _ _) as [[idx' t']|] eqn:Ec; [|done].
    injection Hd as <- <- <-. by eapply call_next_done_outcome.
Qed.

Lemma dispatch_done_outcomes_witness :
  Forall (λ args, is_Some (done_outcome args))
    (done_calls
       [EvRequest 0 twice_layer (<["route" := route_ref 5]> ∅) ∅;
        EvRequest 1 router_layer (<["route" := route_ref 5]> ∅) ∅;
        EvDone [VString "router"];
        EvRequest 2 pass_layer (<["route" := route_ref 5]> ∅) ∅;
        EvDone [VUndefined]]).
Proof.
  refine (dispatch_done_outcomes 5 ∅ ∅
            {[ 5 := {| path := "/";
                       stack := [twice_layer; router_layer; pass_layer] |} ]}
            {[ 5 := {| path := "/";
                       stack := [twice_layer; router_layer; pass_layer] |} ]}
            {| path := "/";
               stack := [twice_layer; router_layer; pass_layer] |}
            (<["route" := route_ref 5]> ∅) _ _ _).
  - apply lookup_singleton_eq.
  - vm_compute. reflexivity.
Defined.

(** Layers that never call twice, whichever way they are invoked, make
    no second call in any trace that invokes them from the stack. *)
Lemma calls_at_most_once_no_second_call (stack_ : list Layer)
    (t : list event) :
  Forall calls_at_most_once stack_ →
  Forall (invokes_from stack_) t →
  no_second_call t.
Proof.
  intros Honce Hfrom. apply Forall_forall. intros e He.
  pose proof (proj1 (Forall_forall _ _) Hfrom e He) as Hl.
  destruct e as [pos layer q s|pos layer err q s|args]; [| |done].
  - apply list_elem_of_lookup_2 in Hl.
    by destruct (proj1 (Forall_forall _ _) Honce layer Hl).
  - apply list_elem_of_lookup_2 in Hl.
    destruct (proj1 (Forall_forall _ _) Honce layer Hl) as [_ Herr].
    apply Herr.
Qed.

(** X3.  In a dispatch in which no layer calls its continuation more than
    once, [done] is called at most once, and when it is called it is the
    last thing that happens: no layer is invoked after it.  What counts is
    what the layers invoked do in this dispatch. *)
Theorem dispatch_done_is_last (this : loc) (req : Request)
    (res : Response) (h h' : heap) (r : Route) (req' : Request)
    (t : list event) :
  h !! this = Some r →
  dispatch this req res h = Some (h', req', t) →
  no_second_call t →
  done_calls t = []
  ∨ ∃ pre args, t = pre ++ [EvDone args] ∧ done_calls pre = [].
Proof.
  intros Hr Hd Honce. unfold dispatch in Hd. rewrite Hr in Hd.
  simpl in Hd. case_decide.
  - injection Hd as <- <- <-. right. by exists [], [].
  - destruct (call_next _ _ _ _ _ _) as [[idx' t']|] eqn:Ec; [|done].
    injection Hd as <- <- <-.
    eapply chain_done_last. by eapply call_next_chain.
Qed.

Lemma dispatch_done_is_last_witness :
  done_calls
    [EvRequest 0 pass_layer (<["route" := route_ref 5]> ∅) ∅;
     EvRequest 1 router_layer (<["route" := route_ref 5]> ∅) ∅;
     EvDone [VString "router"]] = []
  ∨ ∃ pre args,
      [EvRequest 0 pass_layer (<["route" := route_ref 5]> ∅) ∅;
       EvRequest 1 router_layer (<["route" := route_ref 5]> ∅) ∅;
       EvDone [VString "router"]] = pre ++ [EvDone args]
      ∧ done_calls pre = [].
Proof.
  refine (dispatch_done_is_last 5 ∅ ∅
            {[ 5 := {| path := "/";
                       stack := [pass_layer; router_layer; twice_layer] |} ]}
            {[ 5 := {| path := "/";
                       stack := [pass_layer; router_layer; twice_layer] |} ]}
            {| path := "/";
               stack := [pass_layer; router_layer; twice_layer] |}
            (<["route" := route_ref 5]> ∅) _ _ _ _).
  - apply lookup_singleton_eq.
  - vm_compute. reflexivity.
  - unfold no_second_call, answers_once. repeat constructor.
Defined.

Section Provenance.

Context (stack_ : list Layer) (req : Request) (res : Response).

Lemma passed_app t1 t2 : passed (t1 ++ t2) = passed t1 ++ passed t2.
Proof. apply bind_app. Qed.

Lemma run_calls_hands_on (ok : value → Prop)
    (k : nat → value → option (nat * list event)) calls :
  (∀ idx err idx' t, ok err → k idx err = Some (idx', t) →
     (∀ v, v ∈ passed t → ok v) → Forall (hands_on ok) t) →
  ∀ idx idx' t, (∀ c, c ∈ calls → ok c) →
    run_calls k idx calls = Some (idx', t) →
    (∀ v, v ∈ passed t → ok v) → Forall (hands_on ok) t.
Proof.
  intros Hk. induction calls as [|err calls IH];
    intros idx idx' t Hcalls Hrun Hpassed.
  - injection Hrun as <- <-. constructor.
  - simpl in Hrun.
    destruct (k idx err) as [[idx1 t1]|] eqn:E1; [|done].
    simpl in Hrun.
    destruct (run_calls k idx1 calls) as [[idx2 t2]|] eqn:E2; [|done].
    injection Hrun as <- <-. rewrite passed_app in Hpassed.
    apply Forall_app. split.
    + eapply Hk; [|done|].
      * apply Hcalls, list_elem_of_here.
      * intros v Hv. apply Hpassed, elem_of_app. by left.
    + eapply IH; [|done|].
      * intros c Hc. by apply Hcalls, list_elem_of_further.
      * intros v Hv. apply Hpassed, elem_of_app. by right.
Qed.

Lemma next_done_args idx err idx' args :
  next stack_ idx err = (idx', CallDone args) → args = [] ∨ args = [err].
Proof.
  unfold next. intros En. repeat case_match; simplify_eq; auto.
Qed.

Lemma next_error_value idx err idx' layer e :
  next stack_ idx err = (idx', CallHandleError layer e) → e = err.
Proof.
  unfold next. intros En. repeat case_match; by simplify_eq.
Qed.

(** What a call of the continuation hands on, to error handlers and to
    [done], is the value it was called with or a value passed by a layer
    that it invoked. *)
Lemma call_next_hands_on (ok : value → Prop) depth : ∀ idx err idx' t,
  ok err →
  call_next stack_ req res depth idx err = Some (idx', t) →
  (∀ v, v ∈ passed t → ok v) →
  Forall (hands_on ok) t.
Proof.
  induction depth as [|depth IH]; intros idx err idx' t Hok Hcall Hpassed;
    simpl in Hcall;
    destruct (next stack_ idx err) as [idx1 [args|layer|layer e]] eqn:En;
    try discriminate;
    try (injection Hcall as <- <-; repeat constructor; simpl;
         destruct (next_done_args _ _ _ _ En) as [->| ->];
         by repeat constructor).
  - destruct (run_calls _ idx1 (handle_request layer))
      as [[idx2 t2]|] eqn:E; [|done].
    injection Hcall as <- <-.
    change (passed (EvRequest idx layer req res :: t2))
      with (handle_request layer ++ passed t2) in Hpassed.
    constructor; [done|].
    eapply (run_calls_hands_on ok); [exact IH| |done|].
    + intros c Hc. apply Hpassed, elem_of_app. by left.
    + intros v Hv. apply Hpassed, elem_of_app. by right.
  - apply next_error_value in En as ->.
    destruct (run_calls _ idx1 (handle_error layer err))
      as [[idx2 t2]|] eqn:E; [|done].
    injection Hcall as <- <-.
    change (passed (EvError idx layer err req res :: t2))
      with (handle_error layer err ++ passed t2) in Hpassed.
    constructor; [done|].
    eapply (run_calls_hands_on ok); [exact IH| |done|].
    + intros c Hc. apply Hpassed, elem_of_app. by left.
    + intros v Hv. apply Hpassed, elem_of_app. by right.
Qed.

(** Layers that answer with values that count as no error are walked in
    order to the end; [done] gets the last value passed. *)
Lemma call_next_falsy_walk depth : ∀ idx err,
  truthy err = false →
  (∀ layer, layer ∈ stack_ →
     ∃ v, handle_request layer = [v] ∧ truthy v = false) →
  length stack_ ≤ depth + idx →
  idx ≤ length stack_ →
  ∃ v, call_next stack_ req res depth idx err
       = Some (S (length stack_),
               request_events req res idx (drop idx stack_)
               ++ [EvDone [v]])
       ∧ match last (drop idx stack_) with
         | Some layer => handle_request layer = [v]
         | None => v = err
         end.
Proof.
  induction depth as [|depth IH]; intros idx err Hf Hpass Hd Hidx.
  - assert (idx = length stack_) as -> by lia.
    exists err. simpl. rewrite next_falsy by done.
    rewrite (lookup_ge_None_2 stack_ (length stack_)) by lia.
    by rewrite drop_all.
  - simpl. rewrite next_falsy by done.
    destruct (stack_ !! idx) as [layer|] eqn:El.
    + destruct (Hpass layer) as (w & Hw & Hwf);
        [by eapply list_elem_of_lookup_2|].
      rewrite Hw, run_calls_single.
      destruct (IH (S idx) w Hwf Hpass ltac:(lia)) as (v & -> & Hlast).
      { apply lookup_lt_Some in El. lia. }
      exists v. rewrite (drop_S _ _ _ El). split; [done|].
      rewrite last_cons.
      destruct (last (drop (S idx) stack_)); [done|by subst].
    + apply lookup_ge_None_1 in El.
      assert (idx = length stack_) as -> by lia.
      exists err. by rewrite drop_all.
Qed.

End Provenance.

(** X4.  A dispatch does not make up or alter the values it hands on:
    whatever the handlers do, every error value given to a layer's
    [handle_error] and every argument given to [done] is a value that a
    layer invoked in this dispatch passed to its continuation, or
    [undefined]. *)
Theorem dispatch_hands_on_passed (this : loc) (req : Request)
    (res : Response) (h h' : heap) (r : Route) (req' : Request)
    (t : list event) :
  h !! this = Some r →
  dispatch this req res h = Some (h', req', t) →
  Forall (hands_on (λ v, v = VUndefined ∨ v ∈ passed t)) t.
Proof.
  intros Hr Hd. unfold dispatch in Hd. rewrite Hr in Hd. simpl in Hd.
  case_decide.
  - injection Hd as <- <- <-. by repeat constructor.
  - destruct (call_next _ _ _ _ _ _) as [[idx' t']|] eqn:Ec; [|done].
    injection Hd as <- <- <-.
    eapply call_next_hands_on; [|done|]; [by left|].
    intros v Hv. by right.
Qed.

Lemma dispatch_hands_on_passed_witness :
  Forall (hands_on
            (λ v, v = VUndefined
                  ∨ v ∈ passed
                      [EvRequest 0 boom_layer
                         (<["route" := route_ref 5]> ∅) ∅;
                       EvError 1 pass_layer boom
                         (<["route" := route_ref 5]> ∅) ∅;
                       EvDone [boom]]))
    [EvRequest 0 boom_layer (<["route" := route_ref 5]> ∅) ∅;
     EvError 1 pass_layer boom (<["route" := route_ref 5]> ∅) ∅;
     EvDone [boom]].
Proof.
  refine (dispatch_hands_on_passed 5 ∅ ∅
            {[ 5 := {| path := "/"; stack := [boom_layer; pass_layer] |} ]}
            {[ 5 := {| path := "/"; stack := [boom_layer; pass_layer] |} ]}
            {| path := "/"; stack := [boom_layer; pass_layer] |}
            (<["route" := route_ref 5]> ∅) _ _ _).
  - apply lookup_singleton_eq.
  - vm_compute. reflexivity.
Defined.

(** X5.  [next] tests its argument for truth, not for being an error:
    when every layer answers its invocation with one call of its
    continuation, with a value that JavaScript takes for false ([null],
    [0], [''], [false], [NaN] as well as [undefined]), the dispatch
    invokes [handle_request] of every layer, in the order of the stack,
    and then calls [done] with the value that the last layer passed. *)
Theorem dispatch_falsy_answers (this : loc) (req : Request)
    (res : Response) (h : heap) (r : Route) :
  h !! this = Some r →
  stack r ≠ [] →
  (∀ layer, layer ∈ stack r →
     ∃ v, handle_request layer = [v] ∧ truthy v = false) →
  ∃ layer v,
    last (stack r) = Some layer
    ∧ handle_request layer = [v]
    ∧ dispatch this req res h
      = Some (h, <["route" := route_ref this]> req,
              request_events (<["route" := route_ref this]> req) res 0
                (stack r)
              ++ [EvDone [v]]).
Proof.
  intros Hr Hne Hpass. unfold dispatch. rewrite Hr. simpl.
  case_decide as Hlen.
  { by apply length_zero_iff_nil in Hlen. }
  destruct (call_next_falsy_walk (stack r)
              (<["route" := route_ref this]> req) res (length (stack r))
              0 VUndefined eq_refl Hpass ltac:(lia) ltac:(lia))
    as (v & -> & Hlast).
  rewrite drop_0 in Hlast. simpl.
  destruct (last (stack r)) as [layer|] eqn:El.
  - exists layer, v. by rewrite drop_0.
  - apply last_None in El. done.
Qed.

Lemma dispatch_falsy_answers_witness :
  ∃ layer v,
    last [null_layer; zero_layer] = Some layer
    ∧ handle_request layer = [v]
    ∧ dispatch 5 ∅ ∅
        {[ 5 := {| path := "/"; stack := [null_layer; zero_layer] |} ]}
      = Some ({[ 5 := {| path := "/";
                         stack := [null_layer; zero_layer] |} ]},
              <["route" := route_ref 5]> ∅,
              request_events (<["route" := route_ref 5]> ∅) ∅ 0
                [null_layer; zero_layer]
              ++ [EvDone [v]]).
Proof.
  apply (dispatch_falsy_answers 5 ∅ ∅ _
           {| path := "/"; stack := [null_layer; zero_layer] |}).
  - apply lookup_singleton_eq.
  - discriminate.
  - intros layer Hin. simpl in Hin. list_cases Hin.
    + by exists VNull.
    + by exists (VNumber 0).
Defined.

(** ** Registration calls in sequence *)

Section RegistrationChains.

Context (Layer_ : string → gmap string value → value → Layer).

Lemma flatten_cons v vs : flatten (v :: vs) = flatten_value v ++ flatten vs.
Proof. reflexivity. Qed.

Lemma flatten_app a b : flatten (a ++ b) = flatten a ++ flatten b.
Proof.
  induction a as [|v a IH]; [done|].
  rewrite <-app_comm_cons, !flatten_cons, IH. by rewrite (assoc_L (++)).
Qed.

Lemma handles_loop_app throw_ xs ys : ∀ stack_,
  Forall (λ v, is_function v = true) xs →
  handles_loop Layer_ throw_ (xs ++ ys) stack_
  = handles_loop Layer_ throw_ ys (stack_ ++ (Layer_ "/" ∅ <$> xs)).
Proof.
  induction xs as [|x xs IH]; intros stack_ Hfun.
  - simpl. by rewrite app_nil_r.
  - apply Forall_cons in Hfun as [Hx Hfun]. simpl. rewrite Hx. simpl.
    rewrite IH by done. by rewrite <-(assoc_L (++)).
Qed.

(** A registration call that returns, followed by another on the same
    route, is the second call made with the arguments of both. *)
Lemma register_chain throw1 throw2 this a b (h : heap) r :
  h !! this = Some r →
  Forall (λ v, is_function v = true) (flatten a) →
  ∃ h1, register Layer_ throw1 this a h = Some (h1, Returns (route_ref this))
        ∧ register Layer_ throw2 this b h1
          = register Layer_ throw2 this (a ++ b) h.
Proof.
  intros Hr Hfun. eexists. split.
  { by apply register_functions. }
  unfold register. rewrite Hr, lookup_insert_eq. simpl.
  rewrite flatten_app, handles_loop_app by done.
  destruct (handles_loop _ _ _ _) as [stack' [e|]];
    by rewrite insert_insert_eq.
Qed.

End RegistrationChains.

(** X6.  Registration calls chain: when a call of [all] or [get] gets
    only functions, it returns the route, and a call of [all] or [get]
    made on the route after it leaves the store, and ends, exactly as that
    second call would when made alone with the arguments of both calls;
    [route.all(a).get(b)] is [route.get(a, b)]. *)
Theorem registration_chains
    (Layer_ : string → gmap string value → value → Layer)
    (this : loc) (a b : list value) (h : heap) (r : Route) :
  h !! this = Some r →
  Forall (λ v, is_function v = true) (flatten a) →
  (∃ h1, all Layer_ this a h = Some (h1, Returns (route_ref this))
         ∧ all Layer_ this b h1 = all Layer_ this (a ++ b) h
         ∧ get Layer_ this b h1 = get Layer_ this (a ++ b) h)
  ∧ (∃ h1, get Layer_ this a h = Some (h1, Returns (route_ref this))
           ∧ all Layer_ this b h1 = all Layer_ this (a ++ b) h
           ∧ get Layer_ this b h1 = get Layer_ this (a ++ b) h).
Proof.
  intros Hr Hfun. split.
  - destruct (register_chain Layer_ all_throw all_throw this a b h r Hr Hfun)
      as (h1 & E1 & E2).
    destruct (register_chain Layer_ all_throw get_throw this a b h r Hr Hfun)
      as (h1' & E1' & E2').
    unfold all in *. rewrite E1 in E1'. simplify_eq.
    by exists h1'.
  - destruct (register_chain Layer_ get_throw all_throw this a b h r Hr Hfun)
      as (h1 & E1 & E2).
    destruct (register_chain Layer_ get_throw get_throw this a b h r Hr Hfun)
      as (h1' & E1' & E2').
    unfold get in *. rewrite E1 in E1'. simplify_eq.
    by exists h1'.
Qed.

Lemma registration_chains_witness :
  (∃ h1, all sample_Layer 5 [handler_a] {[ 5 := Route_new "/" ]}
         = Some (h1, Returns (route_ref 5))
         ∧ all sample_Layer 5 [VNull; handler_b] h1
           = all sample_Layer 5 ([handler_a] ++ [VNull; handler_b])
               {[ 5 := Route_new "/" ]}
         ∧ get sample_Layer 5 [VNull; handler_b] h1
           = get sample_Layer 5 ([handler_a] ++ [VNull; handler_b])
               {[ 5 := Route_new "/" ]})
  ∧ (∃ h1, get sample_Layer 5 [handler_a] {[ 5 := Route_new "/" ]}
           = Some (h1, Returns (route_ref 5))
           ∧ all sample_Layer 5 [VNull; handler_b] h1
             = all sample_Layer 5 ([handler_a] ++ [VNull; handler_b])
                 {[ 5 := Route_new "/" ]}
           ∧ get sample_Layer 5 [VNull; handler_b] h1
             = get sample_Layer 5 ([handler_a] ++ [VNull; handler_b])
                 {[ 5 := Route_new "/" ]}).
Proof.
  apply (registration_chains sample_Layer 5 [handler_a] [VNull; handler_b]
           {[ 5 := Route_new "/" ]} (Route_new "/")).
  - apply lookup_singleton_eq.
  - repeat constructor.
Defined.

(** X7.  A registration call on one route, whether it returns or throws,
    changes no other route of the store, and leaves the path of its own
    route as it was. *)
Theorem registration_frame
    (Layer_ : string → gmap string value → value → Layer)
    (this : loc) (args : list value) (h h' : heap) (r : Route)
    (c : completion) :
  h !! this = Some r →
  all Layer_ this args h = Some (h', c)
  ∨ get Layer_ this args h = Some (h', c) →
  (∀ other, other ≠ this → h' !! other = h !! other)
  ∧ ∃ r', h' !! this = Some r' ∧ path r' = path r.
Proof.
  intros Hr Hreg.
  assert (∃ throw_, register Layer_ throw_ this args h = Some (h', c))
    as [throw_ E].
  { destruct Hreg; by eexists. }
  destruct (register_appends Layer_ throw_ this args h r Hr)
    as (new & c' & E').
  rewrite E in E'. injection E' as -> ->. split.
  - intros other Hne. by rewrite lookup_insert_ne.
  - eexists. by rewrite lookup_insert_eq.
Qed.

Lemma registration_frame_witness :
  (∀ other, other ≠ 5 →
     (<[5 := {| path := "/a"; stack := [] ++ [pass_layer] |}]>
        (<[6 := Route_new "/b"]> {[ 5 := Route_new "/a" ]})
      : gmap loc Route) !! other
     = (<[6 := Route_new "/b"]> {[ 5 := Route_new "/a" ]}
        : gmap loc Route) !! other)
  ∧ ∃ r',
      (<[5 := {| path := "/a"; stack := [] ++ [pass_layer] |}]>
         (<[6 := Route_new "/b"]> {[ 5 := Route_new "/a" ]})
       : gmap loc Route) !! 5
      = Some r'
      ∧ path r' = path (Route_new "/a").
Proof.
  refine (registration_frame sample_Layer 5 [handler_a]
            (<[6 := Route_new "/b"]> {[ 5 := Route_new "/a" ]})
            _ (Route_new "/a") (Returns (route_ref 5)) _ _).
  - vm_compute. reflexivity.
  - left. vm_compute. reflexivity.
Defined.

(** X8.  From construction to dispatch: on a route made by [new Route(p)],
    after one call of [all] with handlers that are all functions (nested
    in arrays or not), a dispatch invokes the layers made for the
    handlers, once each, in the order in which the handlers appear in the
    flattened arguments, and then calls [done] with no error; the layers
    are taken to call their continuations once, without argument. *)
Theorem register_then_dispatch
    (Layer_ : string → gmap string value → value → Layer)
    (this : loc) (p : string) (args : list value) (req : Request)
    (res : Response) (h : heap) :
  flatten args ≠ [] →
  Forall (λ v, is_function v = true) (flatten args) →
  (∀ fn, fn ∈ flatten args →
     handle_request (Layer_ "/" ∅ fn) = [VUndefined]) →
  ∃ h1,
    all Layer_ this args (<[this := Route_new p]> h)
    = Some (h1, Returns (route_ref this))
    ∧ dispatch this req res h1
      = Some (h1, <["route" := route_ref this]> req,
              request_events (<["route" := route_ref this]> req) res 0
                (Layer_ "/" ∅ <$> flatten args)
              ++ [EvDone [VUndefined]]).
Proof.
  intros Hne Hfun Hpass. eexists. split.
  { unfold all. apply (register_functions _ _ _ _ _ (Route_new p));
      [apply lookup_insert_eq | done]. }
  unfold dispatch. rewrite lookup_insert_eq. simpl.
  case_decide as Hlen.
  { rewrite length_fmap in Hlen. by apply length_zero_iff_nil in Hlen. }
  rewrite call_next_all_pass; [done| |lia|lia].
  intros layer Hin. apply list_elem_of_fmap in Hin as (fn & -> & Hin).
  by apply Hpass.
Qed.

Lemma register_then_dispatch_witness :
  ∃ h1,
    all sample_Layer 5 [handler_a; VArray [handler_b]]
      (<[5 := Route_new "/x"]> ∅)
    = Some (h1, Returns (route_ref 5))
    ∧ dispatch 5 ∅ ∅ h1
      = Some (h1, <["route" := route_ref 5]> ∅,
              request_events (<["route" := route_ref 5]> ∅) ∅ 0
                (sample_Layer "/" ∅ <$> flatten [handler_a;
                                                 VArray [handler_b]])
              ++ [EvDone [VUndefined]]).
Proof.
  apply (register_then_dispatch sample_Layer 5 "/x"
           [handler_a; VArray [handler_b]] ∅ ∅ ∅).
  - discriminate.
  - repeat constructor.
  - intros fn Hin. change (fn ∈ [handler_a; handler_b]) in Hin.
    list_cases Hin; reflexivity.
Defined.

(** * The request class *)

Section RequestPath.

Import RequestClass.

Lemma indexOf_bounds str c :
  (indexOf str c = -1 ∨ 0 ≤ indexOf str c < Z.of_nat (String.length str))%Z.
Proof.
  induction str as [|c' str IH]; simpl; [by left|].
  destruct (Ascii.eqb c' c); [right; lia|].
  destruct (Z.ltb_spec (indexOf str c) 0); [by left|right; lia].
Qed.

(** The string splits at the first occurrence: the part before it, of
    the length that [indexOf] gives, does not hold the character. *)
Lemma indexOf_split str c :
  (0 ≤ indexOf str c)%Z →
  ∃ prefix suffix,
    str = (prefix +:+ String c suffix)
    ∧ Z.of_nat (String.length prefix) = indexOf str c
    ∧ indexOf prefix c = (-1)%Z.
Proof.
  induction str as [|c' str IH]; simpl; [lia|].
  destruct (Ascii.eqb_spec c' c) as [->|Hne].
  - intros _. by exists EmptyString, str.
  - destruct (Z.ltb_spec (indexOf str c) 0) as [|Hge]; [lia|]. intros _.
    destruct (IH Hge) as (prefix & suffix & -> & Hlen & Hnone).
    exists (String c' prefix), suffix. simpl. split_and!; [done|lia|].
    destruct (Ascii.eqb_spec c' c); [done|]. by rewrite Hnone.
Qed.

Lemma substring_prefix prefix suffix :
  String.substring 0 (String.length prefix) (prefix +:+ suffix) = prefix.
Proof.
  induction prefix as [|c prefix IH]; simpl.
  - by destruct suffix.
  - by rewrite IH.
Qed.

Lemma append_empty str : str +:+ "" = str.
Proof.
  induction str as [|c str IH]; [done|].
  change (String c (str +:+ "") = String c str). by rewrite IH.
Qed.

Lemma length_append prefix suffix :
  String.length (prefix +:+ suffix)
  = String.length prefix + String.length suffix.
Proof. induction prefix; simpl; [done|]. by f_equal. Qed.

Lemma substr_prefix prefix suffix :
  substr (prefix +:+ suffix) 0 (Z.of_nat (String.length prefix)) = prefix.
Proof.
  unfold substr. rewrite length_append.
  change (0 <? 0)%Z with false. cbv iota.
  set (lb := String.length prefix). set (la := String.length suffix).
  assert (Z.to_nat (Z.min 0 (Z.of_nat (lb + la))) = 0) as -> by lia.
  assert (Z.min 0 (Z.of_nat (lb + la)) = 0%Z) as -> by lia.
  assert (Z.to_nat (Z.min (Z.max (Z.of_nat lb) 0)
                      (Z.of_nat (lb + la) - 0)) = lb) as -> by lia.
  apply substring_prefix.
Qed.

End RequestPath.

(** The two cases of [path]: the selector holds a ['?'] and [path] is
    what stands before the first, or it holds none and is the [path]. *)
Lemma path_cases (this : RequestClass.Request) :
  (∃ prefix suffix,
     RequestClass.selector this
     = (prefix +:+ String RequestClass.query_mark suffix)
     ∧ RequestClass.indexOf prefix RequestClass.query_mark = (-1)%Z
     ∧ RequestClass.path this = prefix)
  ∨ (RequestClass.indexOf (RequestClass.selector this)
       RequestClass.query_mark = (-1)%Z
     ∧ RequestClass.path this = RequestClass.selector this).
Proof.
  unfold RequestClass.path.
  generalize (RequestClass.selector this). intros sel.
  destruct (Z.geb_spec (RequestClass.indexOf sel RequestClass.query_mark) 0)
    as [Hge|Hlt].
  - left. destruct (indexOf_split _ _ Hge)
      as (prefix & suffix & -> & Hlen & Hnone).
    exists prefix, suffix. by rewrite <-Hlen, substr_prefix.
  - right. split; [|done].
    destruct (indexOf_bounds sel RequestClass.query_mark); [done|lia].
Qed.

(** X9.  [path] is the selector up to its first ['?']: the selector is
    [path] followed by a rest that is empty or begins with ['?'], and
    [path] holds no ['?']. *)
Theorem path_is_selector_before_query (this : RequestClass.Request) :
  ∃ rest,
    RequestClass.selector this = (RequestClass.path this +:+ rest)
    ∧ (rest = EmptyString
       ∨ ∃ query, rest = String RequestClass.query_mark query)
    ∧ RequestClass.indexOf (RequestClass.path this) RequestClass.query_mark
      = (-1)%Z.
Proof.
  destruct (path_cases this)
    as [(prefix & suffix & Hsel & Hnone & Hpath)|[Hnone Hpath]];
    rewrite Hpath.
  - exists (String RequestClass.query_mark suffix).
    split_and!; [done| |done]. right. by exists suffix.
  - exists EmptyString. rewrite append_empty.
    split_and!; [done| |done]. by left.
Qed.

(** X10.  Taking the path is idempotent: a request whose selector is the
    path of another has that selector as its path. *)
Theorem path_of_path (this other : RequestClass.Request) :
  RequestClass.selector other = RequestClass.path this →
  RequestClass.path other = RequestClass.path this.
Proof.
  intros Hsel.
  assert (RequestClass.indexOf (RequestClass.path this)
            RequestClass.query_mark = (-1)%Z) as Hnone.
  { destruct (path_cases this)
      as [(prefix & suffix & _ & Hnone & ->)|[Hnone ->]]; done. }
  unfold RequestClass.path at 1. rewrite Hsel, Hnone. done.
Qed.

Lemma path_of_path_witness :
  RequestClass.path
    (RequestClass.mkRequest (λ _, VUndefined)
       (RequestClass.mkConnection VUndefined VUndefined) "/docs/a.txt")
  = RequestClass.path
      (RequestClass.mkRequest (λ _, VUndefined)
         (RequestClass.mkConnection VUndefined VUndefined)
         "/docs/a.txt?q=1?2").
Proof.
  apply (path_of_path
           (RequestClass.mkRequest (λ _, VUndefined)
              (RequestClass.mkConnection VUndefined VUndefined)
              "/docs/a.txt?q=1?2")
           (RequestClass.mkRequest (λ _, VUndefined)
              (RequestClass.mkConnection VUndefined VUndefined)
              "/docs/a.txt")).
  reflexivity.
Defined.

(** * The response class *)

Section ResponseFacts.

Import ResponseClass.

Context (Buffer_isBuffer instanceof_Buffer : value → bool).
Context (statuses : value → value).
Context (JSON_stringify : list value → completion).
Context (app_get : string → value).
Context (this : value).

Lemma has_sniffing_append s1 s2 :
  has_sniffing (s1 +:+ s2) = has_sniffing s1 || has_sniffing s2.
Proof.
  induction s1 as [|c s1 IH]; [done|].
  change (sniffing c || has_sniffing (s1 +:+ s2)
          = sniffing c || has_sniffing s1 || has_sniffing s2).
  by rewrite IH, orb_assoc.
Qed.

Lemma escape_char_safe c :
  sniffing c = true → has_sniffing (escape_char c) = false.
Proof.
  unfold sniffing. intros Hc.
  repeat (apply orb_true_iff in Hc as [Hc|Hc]);
    apply Ascii.eqb_eq in Hc as ->; reflexivity.
Qed.

Lemma replace_sniffing_safe str :
  has_sniffing (replace_sniffing str) = false.
Proof.
  induction str as [|c str IH]; [done|].
  simpl. rewrite has_sniffing_append, IH, orb_false_r.
  destruct (sniffing c) eqn:Hc; [by apply escape_char_safe|].
  simpl. by rewrite Hc.
Qed.

Lemma replace_sniffing_id str :
  has_sniffing str = false → replace_sniffing str = str.
Proof.
  induction str as [|c str IH]; [done|]. simpl.
  intros [Hc Hstr]%orb_false_iff. by rewrite Hc, IH.
Qed.

(** What [end] does to the connection. *)
Lemma end_calls args log c :
  end_ instanceof_Buffer this args = (log, c) →
  (log = [] ∧ (c = Returns this ∨ ∃ e, c = Throws e))
  ∨ ∃ chunk encoding callback,
      log = [ConnectionCork; ConnectionEnd chunk encoding callback;
             ConnectionUncork]
      ∧ c = Returns this
      ∧ truthy chunk = true
      ∧ (typeof chunk = "string" ∨ instanceof_Buffer chunk = true).
Proof.
  unfold end_. intros Hend.
  destruct (if String.eqb (typeof (argument args 0)) "function"
            then _ else _) as [[chunk encoding] callback].
  destruct (truthy chunk) eqn:Ht.
  2:{ simpl in Hend. injection Hend as <- <-. left.
      split; [done|by left]. }
  destruct (String.eqb_spec (typeof chunk) "string") as [Hs|Hs];
    destruct (instanceof_Buffer chunk) eqn:Hb; simpl in Hend;
    injection Hend as <- <-.
  - right. eexists _, _, _. split_and!; [done..|by left].
  - right. eexists _, _, _. split_and!; [done..|by left].
  - right. eexists _, _, _. split_and!; [done..|by right].
  - left. split; [done|right; by eexists].
Qed.

(** [end(chunk)] with one argument hands the chunk on as it is. *)
Lemma end_one chunk log c :
  end_ instanceof_Buffer this [chunk] = (log, c) →
  (log = [] ∧ (c = Returns this ∨ ∃ e, c = Throws e))
  ∨ (log = [ConnectionCork; ConnectionEnd chunk VUndefined VUndefined;
            ConnectionUncork]
     ∧ c = Returns this
     ∧ truthy chunk = true
     ∧ (typeof chunk = "string" ∨ instanceof_Buffer chunk = true)).
Proof.
  unfold end_.
  change (argument [chunk] 0) with chunk.
  change (argument [chunk] 1) with VUndefined.
  change (argument [chunk] 2) with VUndefined.
  intros Hend.
  destruct (String.eqb_spec (typeof chunk) "function") as [Hf|Hf];
    simpl in Hend.
  { injection Hend as <- <-. left. split; [done|by left]. }
  destruct (truthy chunk) eqn:Ht.
  2:{ simpl in Hend. injection Hend as <- <-. left.
      split; [done|by left]. }
  destruct (String.eqb_spec (typeof chunk) "string") as [Hs|Hs];
    destruct (instanceof_Buffer chunk) eqn:Hb; simpl in Hend;
    injection Hend as <- <-.
  - right. split_and!; [done..|by left].
  - right. split_and!; [done..|by left].
  - right. split_and!; [done..|by right].
  - left. split; [done|right; by eexists].
Qed.

Lemma connection_calls_app log1 log2 :
  connection_calls (log1 ++ log2)
  = connection_calls log1 ++ connection_calls log2.
Proof. apply omap_app. Qed.

Lemma written_app log1 log2 :
  written (log1 ++ log2) = written log1 ++ written log2.
Proof. apply omap_app. Qed.

Lemma end_one_disciplined chunk log c :
  end_ instanceof_Buffer this [chunk] = (log, c) →
  disciplined instanceof_Buffer this
    (log, match c with Returns _ => Returns this | Throws e => Throws e end).
Proof.
  intros Hend.
  destruct (end_one _ _ _ Hend)
    as [[-> [->|[e ->]]]|(-> & -> & Ht & Hty)].
  - left. split; [done|by left].
  - left. split; [done|right; by eexists].
  - right. by exists chunk.
Qed.

Lemma disciplined_prefix log0 log c :
  connection_calls log0 = [] →
  disciplined instanceof_Buffer this (log, c) →
  disciplined instanceof_Buffer this (log0 ++ log, c).
Proof.
  intros H0 [[Hl Hc]|(chunk & Hl & Hc)]; simpl in *.
  - left. simpl. by rewrite connection_calls_app, H0, Hl.
  - right. exists chunk. simpl. by rewrite connection_calls_app, H0.
Qed.

(** [send] keeps the discipline if [json] does. *)
Lemma send_with_disciplined
    (json_ : list value → option (list effect * completion)) args r :
  (∀ a r', json_ a = Some r' → disciplined instanceof_Buffer this r') →
  send_with Buffer_isBuffer instanceof_Buffer statuses this json_ args
  = Some r →
  disciplined instanceof_Buffer this r.
Proof.
  intros Hjson. unfold send_with.
  set (first := if length args =? 2 then _ else _).
  assert (connection_calls first.1 = []) as H1.
  { subst first. repeat case_match; done. }
  destruct first as [log1 chunk1]. simpl in H1.
  set (second := if String.eqb (typeof chunk1) "number" && _
                 then _ else _).
  assert (connection_calls second.1 = []) as H2.
  { subst second. repeat case_match; done. }
  destruct second as [log2 chunk]. simpl in H2.
  assert (∀ ch r',
    (let '(log3, c) := end_ instanceof_Buffer this [ch] in
     Some (log1 ++ log2 ++ log3,
           match c with Returns _ => Returns this | Throws e => Throws e end))
    = Some r' → disciplined instanceof_Buffer this r') as Hrespond.
  { intros ch r'. destruct (end_ _ _ [ch]) as [log3 c] eqn:Hend.
    intros [= <-]. do 2 (apply disciplined_prefix; [done|]).
    by eapply end_one_disciplined. }
  assert (∀ ch r',
    (json_ [ch] ≫= λ '(log3, c), Some (log1 ++ log2 ++ log3, c))
    = Some r' →
    disciplined instanceof_Buffer this r') as Hviajson.
  { intros ch r'. destruct (json_ [ch]) as [[log3 c]|] eqn:Hj; [|done].
    intros [= <-]. do 2 (apply disciplined_prefix; [done|]).
    by eapply Hjson. }
  cbv zeta.
  destruct (_ || _ || _); [|by apply Hrespond].
  destruct chunk;
    try (destruct (negb (Buffer_isBuffer _));
         [by apply Hviajson | by apply Hrespond]).
  by apply Hrespond.
Qed.

(** [json] keeps the discipline if [send] does. *)
Lemma json_with_disciplined
    (send_ : list value → option (list effect * completion)) args r :
  (∀ a r', send_ a = Some r' → disciplined instanceof_Buffer this r') →
  json_with JSON_stringify app_get send_ args = Some r →
  disciplined instanceof_Buffer this r.
Proof.
  intros Hsend. unfold json_with.
  set (first := if length args =? 2 then _ else _).
  assert (connection_calls first.1 = []) as H1.
  { subst first. repeat case_match; done. }
  destruct first as [log1 val]. simpl in H1.
  destruct (stringify _ _ _ _ _) as [body|e].
  - destruct (send_ [body]) as [[log2 c]|] eqn:Hs; [|done].
    intros [= <-]. apply disciplined_prefix; [done|]. by eapply Hsend.
  - intros [= <-]. left. split; [done|right; by eexists].
Qed.

Lemma send_disciplined depth : ∀ args r,
  send Buffer_isBuffer instanceof_Buffer statuses JSON_stringify app_get
    this depth args = Some r →
  disciplined instanceof_Buffer this r.
Proof.
  induction depth as [|depth IH]; intros args r; simpl;
    apply send_with_disciplined; intros a r';
    apply json_with_disciplined; [done|exact IH].
Qed.

End ResponseFacts.

Section ResponseSend.

Import ResponseClass.

Context (Buffer_isBuffer instanceof_Buffer : value → bool).
Context (statuses : value → value).
Context (JSON_stringify : list value → completion).
Context (app_get : string → value).
Context (this : value).

(** A string goes straight to [end], whatever the depth. *)
Lemma send_string depth str :
  ResponseClass.send Buffer_isBuffer instanceof_Buffer statuses
    JSON_stringify app_get this depth [VString str]
  = Some (if truthy (VString str)
          then [ConnectionCork;
                ConnectionEnd (VString str) VUndefined VUndefined;
                ConnectionUncork]
          else [],
          Returns this).
Proof.
  destruct depth; unfold ResponseClass.send, send_with, end_; simpl;
    by destruct (negb (str =? "")%string).
Qed.

Lemma send_undefined depth :
  ResponseClass.send Buffer_isBuffer instanceof_Buffer statuses
    JSON_stringify app_get this depth [VUndefined]
  = Some ([], Returns this).
Proof. by destruct depth. Qed.

(** [stringify] gives a string or [undefined], when [JSON.stringify]
    does. *)
Lemma stringify_result value_ replacer spaces escape body :
  (∀ args v, JSON_stringify args = Returns v →
     v = VUndefined ∨ ∃ str, v = VString str) →
  stringify JSON_stringify value_ replacer spaces escape = Returns body →
  body = VUndefined ∨ ∃ str, body = VString str.
Proof.
  intros Hjs. unfold stringify.
  destruct (if truthy replacer || truthy spaces then _ else _)
    as [v|e] eqn:Ej; [|done].
  assert (v = VUndefined ∨ ∃ str, v = VString str) as Hv.
  { destruct (truthy replacer || truthy spaces); by eapply Hjs. }
  destruct (truthy escape); [|by intros [= <-]].
  destruct Hv as [->|[str ->]]; [done|]. intros [= <-]. right. by eexists.
Qed.

End ResponseSend.

(** X11.  However [send] or [json] is called, the socket is either left
    alone or handed exactly one chunk, between [cork] and [uncork]: a
    string or a buffer that is not empty, with no encoding and no
    callback; the call then returns the response.  A call that throws has
    not touched the socket. *)
Theorem send_keeps_connection_discipline
    (Buffer_isBuffer instanceof_Buffer : value → bool)
    (statuses : value → value) (JSON_stringify : list value → completion)
    (app_get : string → value) (this : value) (depth : nat)
    (args : list value) (r : list ResponseClass.effect * completion) :
  ResponseClass.send Buffer_isBuffer instanceof_Buffer statuses
    JSON_stringify app_get this depth args = Some r
  ∨ ResponseClass.json Buffer_isBuffer instanceof_Buffer statuses
      JSON_stringify app_get this depth args = Some r →
  ResponseClass.disciplined instanceof_Buffer this r.
Proof.
  intros [Hs|Hj].
  - by eapply send_disciplined.
  - eapply json_with_disciplined; [|exact Hj].
    intros a r'. apply send_disciplined.
Qed.

Lemma send_keeps_connection_discipline_witness :
  ResponseClass.disciplined (λ _, false) (VObject "Response" 9)
    ([ResponseClass.Deprecate
        "res.send(status, body): Use res.status(status).send(body) instead";
      ResponseClass.ConnectionCork;
      ResponseClass.ConnectionEnd (VString "hello") VUndefined VUndefined;
      ResponseClass.ConnectionUncork],
     Returns (VObject "Response" 9)).
Proof.
  refine (send_keeps_connection_discipline (λ _, false) (λ _, false)
            (λ _, VUndefined) (λ _, Returns VUndefined) (λ _, VUndefined)
            (VObject "Response" 9) 1 [VNumber 200; VString "hello"] _ _).
  left. reflexivity.
Defined.

(** X12.  [send] and [json] call each other at most once: when
    [JSON.stringify] gives a string or [undefined], as it does, [json]
    always comes to a result, and [send] does as soon as it may go through
    [json] once, with the same result for every larger bound. *)
Theorem send_through_json_once
    (Buffer_isBuffer instanceof_Buffer : value → bool)
    (statuses : value → value) (JSON_stringify : list value → completion)
    (app_get : string → value) (this : value) (depth : nat)
    (args : list value) :
  (∀ a v, JSON_stringify a = Returns v →
     v = VUndefined ∨ ∃ str, v = VString str) →
  (∃ r, ResponseClass.json Buffer_isBuffer instanceof_Buffer statuses
          JSON_stringify app_get this depth args = Some r
        ∧ ResponseClass.json Buffer_isBuffer instanceof_Buffer statuses
            JSON_stringify app_get this 0 args = Some r)
  ∧ (∃ r, ResponseClass.send Buffer_isBuffer instanceof_Buffer statuses
            JSON_stringify app_get this (S depth) args = Some r
          ∧ ResponseClass.send Buffer_isBuffer instanceof_Buffer statuses
              JSON_stringify app_get this 1 args = Some r).
Proof.
  intros Hjs.
  assert (∀ d a, ∃ r,
    ResponseClass.json Buffer_isBuffer instanceof_Buffer statuses
      JSON_stringify app_get this d a = Some r
    ∧ ResponseClass.json Buffer_isBuffer instanceof_Buffer statuses
        JSON_stringify app_get this 0 a = Some r) as Hjson.
  { intros d a. unfold ResponseClass.json, ResponseClass.json_with.
    destruct (if length a =? 2 then _ else _) as [log1 val].
    destruct (ResponseClass.stringify _ _ _ _ _) as [body|e] eqn:Es;
      [|by eexists].
    destruct (stringify_result _ _ _ _ _ _ Hjs Es) as [->|[str ->]].
    - rewrite !send_undefined. by eexists.
    - rewrite !send_string. by eexists. }
  split; [apply Hjson|].
  change (∃ r,
    ResponseClass.send_with Buffer_isBuffer instanceof_Buffer statuses this
      (ResponseClass.json Buffer_isBuffer instanceof_Buffer statuses
         JSON_stringify app_get this depth) args = Some r
    ∧ ResponseClass.send_with Buffer_isBuffer instanceof_Buffer statuses this
        (ResponseClass.json Buffer_isBuffer instanceof_Buffer statuses
           JSON_stringify app_get this 0) args = Some r).
  unfold ResponseClass.send_with.
  destruct (if length args =? 2 then _ else _) as [log1 chunk1].
  destruct (if String.eqb (ResponseClass.typeof chunk1) "number" && _
            then _ else _) as [log2 chunk].
  cbv zeta.
  assert (∀ ch, ∃ r,
    (let '(log3, c) := ResponseClass.end_ instanceof_Buffer this [ch] in
     Some (log1 ++ log2 ++ log3,
           match c with Returns _ => Returns this | Throws e => Throws e end))
    = Some r
    ∧ (let '(log3, c) := ResponseClass.end_ instanceof_Buffer this [ch] in
       Some (log1 ++ log2 ++ log3,
             match c with
             | Returns _ => Returns this
             | Throws e => Throws e
             end))
      = Some r) as Hrespond.
  { intros ch. destruct (ResponseClass.end_ _ _ [ch]). by eexists. }
  assert (∀ ch, ∃ r,
    (ResponseClass.json Buffer_isBuffer instanceof_Buffer statuses
       JSON_stringify app_get this depth [ch]
     ≫= λ '(log3, c), Some (log1 ++ log2 ++ log3, c)) = Some r
    ∧ (ResponseClass.json Buffer_isBuffer instanceof_Buffer statuses
         JSON_stringify app_get this 0 [ch]
       ≫= λ '(log3, c), Some (log1 ++ log2 ++ log3, c)) = Some r)
    as Hviajson.
  { intros ch. destruct (Hjson depth [ch]) as ([log3 c] & -> & ->).
    by eexists. }
  destruct (_ || _ || _); [|by apply Hrespond].
  destruct chunk;
    try (destruct (negb (Buffer_isBuffer _));
         [by apply Hviajson | by apply Hrespond]).
  by apply Hrespond.
Qed.

Lemma send_through_json_once_witness :
  (∃ r, ResponseClass.json (λ _, false) (λ _, false) (λ _, VUndefined)
          (λ _, Returns (VString "{}")) (λ _, VUndefined)
          (VObject "Response" 9) 3 [VObject "Object" 1] = Some r
        ∧ ResponseClass.json (λ _, false) (λ _, false) (λ _, VUndefined)
            (λ _, Returns (VString "{}")) (λ _, VUndefined)
            (VObject "Response" 9) 0 [VObject "Object" 1] = Some r)
  ∧ (∃ r, ResponseClass.send (λ _, false) (λ _, false) (λ _, VUndefined)
            (λ _, Returns (VString "{}")) (λ _, VUndefined)
            (VObject "Response" 9) 4 [VObject "Object" 1] = Some r
          ∧ ResponseClass.send (λ _, false) (λ _, false) (λ _, VUndefined)
              (λ _, Returns (VString "{}")) (λ _, VUndefined)
              (VObject "Response" 9) 1 [VObject "Object" 1] = Some r).
Proof.
  apply (send_through_json_once (λ _, false) (λ _, false) (λ _, VUndefined)
           (λ _, Returns (VString "{}")) (λ _, VUndefined)
           (VObject "Response" 9) 3 [VObject "Object" 1]).
  intros a v [= <-]. right. by eexists.
Defined.

(** X13.  With [escape] set, what [stringify] returns is a string that
    holds none of the characters [<], [>] and [&]; it is the text that
    [JSON.stringify] gave whenever that text held none of them. *)
Theorem stringify_escapes (JSON_stringify : list value → completion)
    (value_ replacer spaces escape body : value) :
  truthy escape = true →
  ResponseClass.stringify JSON_stringify value_ replacer spaces escape
  = Returns body →
  ∃ text str,
    (JSON_stringify [value_; replacer; spaces] = Returns (VString text)
     ∨ JSON_stringify [value_] = Returns (VString text))
    ∧ body = VString str
    ∧ ResponseClass.has_sniffing str = false
    ∧ (ResponseClass.has_sniffing text = false → str = text).
Proof.
  intros He. unfold ResponseClass.stringify. rewrite He.
  destruct (truthy replacer || truthy spaces);
    destruct (JSON_stringify _) as [[]|] eqn:Ej; try done;
    intros [= <-]; eexists _, _;
    (split; [by eauto|]);
    (split; [done|]);
    (split; [apply replace_sniffing_safe|apply replace_sniffing_id]).
Qed.

Lemma stringify_escapes_witness :
  ∃ text str,
    ((λ _ : list value, Returns (VString "[<b>&]"))
       [VNull; VUndefined; VUndefined]
     = Returns (VString text)
     ∨ (λ _ : list value, Returns (VString "[<b>&]")) [VNull]
       = Returns (VString text))
    ∧ VString "[\u003cb\u003e\u0026]" = VString str
    ∧ ResponseClass.has_sniffing str = false
    ∧ (ResponseClass.has_sniffing text = false → str = text).
Proof.
  apply (stringify_escapes (λ _, Returns (VString "[<b>&]"))
           VNull VUndefined VUndefined (VBool true)).
  - reflexivity.
  - reflexivity.
Defined.

(** X14.  With the setting ['json escape'] on, whatever [json] hands to
    the socket is a string that holds none of the characters [<], [>]
    and [&]. *)
Theorem json_escape_reaches_socket
    (Buffer_isBuffer instanceof_Buffer : value → bool)
    (statuses : value → value) (JSON_stringify : list value → completion)
    (app_get : string → value) (this : value) (depth : nat)
    (args : list value) (log : list ResponseClass.effect) (c : completion) :
  truthy (app_get "json escape") = true →
  ResponseClass.json Buffer_isBuffer instanceof_Buffer statuses
    JSON_stringify app_get this depth args = Some (log, c) →
  Forall (λ chunk, ∃ str, chunk = VString str
                          ∧ ResponseClass.has_sniffing str = false)
    (ResponseClass.written log).
Proof.
  intros He. unfold ResponseClass.json, ResponseClass.json_with.
  set (first := if length args =? 2 then _ else _).
  assert (ResponseClass.written first.1 = []) as H1.
  { subst first. repeat case_match; done. }
  destruct first as [log1 val]. simpl in H1.
  destruct (ResponseClass.stringify _ _ _ _ _) as [body|e] eqn:Es.
  - destruct (stringify_escapes _ _ _ _ _ _ He Es)
      as (text & str & _ & -> & Hsafe & _).
    rewrite send_string. intros [= <- <-].
    rewrite written_app, H1. simpl.
    destruct (negb (str =? "")%string); repeat constructor. by exists str.
  - intros [= <- <-]. rewrite H1. constructor.
Qed.

Lemma json_escape_reaches_socket_witness :
  Forall (λ chunk, ∃ str, chunk = VString str
                          ∧ ResponseClass.has_sniffing str = false)
    (ResponseClass.written
       [ResponseClass.ConnectionCork;
        ResponseClass.ConnectionEnd (VString "[\u003cb\u003e]")
          VUndefined VUndefined;
        ResponseClass.ConnectionUncork]).
Proof.
  refine (json_escape_reaches_socket (λ _, false) (λ _, false)
            (λ _, VUndefined) (λ _, Returns (VString "[<b>]"))
            (λ _, VBool true) (VObject "Response" 9) 0 [VObject "Object" 1]
            _ (Returns (VObject "Response" 9)) _ _).
  - reflexivity.
  - reflexivity.
Defined.

(** X15.  An empty body ends nothing: [send()], [send(undefined)],
    [send(null)] and [send('')] return the response without a single call
    on the socket, so that the connection is left open. *)
Theorem send_empty_body_leaves_connection
    (Buffer_isBuffer instanceof_Buffer : value → bool)
    (statuses : value → value) (JSON_stringify : list value → completion)
    (app_get : string → value) (this : value) (depth : nat)
    (args : list value) :
  args = [] ∨ args = [VUndefined] ∨ args = [VNull]
  ∨ args = [VString ""] →
  ResponseClass.send Buffer_isBuffer instanceof_Buffer statuses
    JSON_stringify app_get this depth args = Some ([], Returns this).
Proof.
  intros [->|[->|[->| ->]]]; by destruct depth.
Qed.

Lemma send_empty_body_leaves_connection_witness :
  ResponseClass.send (λ _, false) (λ _, false) (λ _, VUndefined)
    (λ _, Returns VUndefined) (λ _, VUndefined) (VObject "Response" 9) 1
    [VNull]
  = Some ([], Returns (VObject "Response" 9)).
Proof.
  apply (send_empty_body_leaves_connection (λ _, false) (λ _, false)
           (λ _, VUndefined) (λ _, Returns VUndefined) (λ _, VUndefined)
           (VObject "Response" 9) 1 [VNull]).
  right. right. left. reflexivity.
Defined.

(** X16.  A value for which [JSON.stringify] gives [undefined] (such as
    [undefined] itself, or a function): with the setting ['json escape']
    on, [json] throws, [replace] being called on [undefined], and the
    socket is not touched; with the setting off, [json] returns the
    response, and the socket is not touched either. *)
Theorem json_of_undefined
    (Buffer_isBuffer instanceof_Buffer : value → bool)
    (statuses : value → value) (JSON_stringify : list value → completion)
    (app_get : string → value) (this : value) (depth : nat) (obj : value) :
  (∀ rest, JSON_stringify (obj :: rest) = Returns VUndefined) →
  (truthy (app_get "json escape") = true →
   ∃ e, ResponseClass.json Buffer_isBuffer instanceof_Buffer statuses
          JSON_stringify app_get this depth [obj] = Some ([], Throws e))
  ∧ (truthy (app_get "json escape") = false →
     ResponseClass.json Buffer_isBuffer instanceof_Buffer statuses
       JSON_stringify app_get this depth [obj] = Some ([], Returns this)).
Proof.
  intros Hjs.
  unfold ResponseClass.json, ResponseClass.json_with,
    ResponseClass.stringify.
  change (ResponseClass.argument [obj] 0) with obj.
  change (length [obj] =? 2) with false. cbv iota.
  split; intros He; rewrite He;
    destruct (truthy (app_get "json replacer")
              || truthy (app_get "json spaces"));
    rewrite Hjs; try by eexists.
  all: by rewrite send_undefined.
Qed.

Lemma json_of_undefined_witness :
  (truthy ((λ _ : string, VBool true) "json escape") = true →
   ∃ e, ResponseClass.json (λ _, false) (λ _, false) (λ _, VUndefined)
          (λ _, Returns VUndefined) (λ _, VBool true)
          (VObject "Response" 9) 0 [VUndefined] = Some ([], Throws e))
  ∧ (truthy ((λ _ : string, VBool true) "json escape") = false →
     ResponseClass.json (λ _, false) (λ _, false) (λ _, VUndefined)
       (λ _, Returns VUndefined) (λ _, VBool true)
       (VObject "Response" 9) 0 [VUndefined]
     = Some ([], Returns (VObject "Response" 9))).
Proof.
  apply (json_of_undefined (λ _, false) (λ _, false) (λ _, VUndefined)
           (λ _, Returns VUndefined) (λ _, VBool true)
           (VObject "Response" 9) 0 VUndefined).
  reflexivity.
Defined.

(** ** File transfer *)

Section TransferFacts.

Import ResponseClass.

Context (property : value → string → value).
Context (isAbsolute : value → bool).
Context (encodeURI : value → completion).

(** One event makes at most one call to the callback; it makes none once
    [done] is set, and sets [done] when it makes one. *)
Lemma transfer_step_latch st ev st' calls :
  transfer_step property st ev = (st', calls) →
  (done_ st = true → calls = [] ∧ done_ st' = true)
  ∧ (calls = [] ∨ ∃ err, calls = [err] ∧ done_ st' = true).
Proof.
  intros Hstep. destruct st as [d s n].
  destruct ev; simpl in Hstep;
    unfold onfinish, onimmediate in Hstep;
    unfold ondirectory, onend, onerror, onfile, onstream, onaborted
      in Hstep;
    simpl in Hstep;
    repeat case_match; simplify_eq/=;
    (split; [by intros ?|]); first [by left | right; by eexists].
Qed.

Lemma sendfile_from_done st events :
  done_ st = true → sendfile_from property st events = [].
Proof.
  revert st. induction events as [|ev events IH]; intros st Hd; [done|].
  simpl. destruct (transfer_step property st ev) as [st' calls] eqn:Es.
  destruct (transfer_step_latch _ _ _ _ Es) as [Hdone _].
  destruct (Hdone Hd) as [-> Hd']. by rewrite IH.
Qed.

Lemma sendfile_from_once st events :
  length (sendfile_from property st events) ≤ 1.
Proof.
  revert st. induction events as [|ev events IH]; intros st; simpl; [lia|].
  destruct (transfer_step property st ev) as [st' calls] eqn:Es.
  destruct (transfer_step_latch _ _ _ _ Es) as [_ [->|(err & -> & Hd)]].
  - apply IH.
  - rewrite sendfile_from_done by done. simpl. lia.
Qed.

(** [done] is set only by a handler that calls the callback. *)
Lemma transfer_step_quiet st ev st' :
  transfer_step property st ev = (st', []) →
  done_ st = false → done_ st' = false.
Proof.
  intros Hstep Hd. destruct st as [d s n]. simpl in Hd. subst d.
  destruct ev; simpl in Hstep;
    unfold onfinish, onimmediate in Hstep;
    unfold ondirectory, onend, onerror, onfile, onstream, onaborted
      in Hstep;
    simpl in Hstep;
    repeat case_match; by simplify_eq/=.
Qed.

(** Events that made no call to the callback leave [done] unset. *)
Lemma sendfile_from_quiet quiet : ∀ st,
  done_ st = false →
  sendfile_from property st quiet = [] →
  ∃ st', done_ st' = false
         ∧ ∀ rest, sendfile_from property st (quiet ++ rest)
                   = sendfile_from property st' rest.
Proof.
  induction quiet as [|ev quiet IH]; intros st Hd Hq.
  - by exists st.
  - simpl in Hq.
    destruct (transfer_step property st ev) as [st1 calls] eqn:Es.
    apply app_eq_nil in Hq as [-> Hq].
    destruct (IH st1) as (st' & Hd' & Hrest);
      [by eapply transfer_step_quiet|done|].
    exists st'. split; [done|]. intros rest. simpl. rewrite Es. simpl.
    apply Hrest.
Qed.

(** The first event that reports, after events that did not, gives the
    one call that [sendfile] makes to its callback. *)
Lemma sendfile_first_call quiet ev later err :
  sendfile property quiet = [] →
  (∀ st, done_ st = false → (transfer_step property st ev).2 = [err]) →
  sendfile property (quiet ++ ev :: later) = [err].
Proof.
  intros Hq Hev. unfold sendfile in *.
  destruct (sendfile_from_quiet quiet transfer_start eq_refl Hq)
    as (st' & Hd' & ->).
  simpl. specialize (Hev st' Hd').
  destruct (transfer_step property st' ev) as [st'' calls] eqn:Es.
  simpl in Hev. subst calls.
  destruct (transfer_step_latch _ _ _ _ Es) as [_ [?|(? & _ & Hd'')]];
    [done|].
  by rewrite sendfile_from_done.
Qed.

Lemma function_truthy v : typeof v = "function" → truthy v = true.
Proof. by destruct v. Qed.

Lemma transfer_callback_once done next err :
  length (transfer_callback property done next err) ≤ 1.
Proof. unfold transfer_callback. repeat case_match; simpl; lia. Qed.

Lemma reactions_once done next calls :
  length calls ≤ 1 →
  length (calls ≫= transfer_callback property done next) ≤ 1.
Proof.
  destruct calls as [|err [|??]]; simpl; [lia| |lia].
  intros _. rewrite app_nil_r. apply transfer_callback_once.
Qed.

End TransferFacts.

(** X17.  [sendfile] calls its callback at most once, whatever the file
    stream and the response emit, and in whatever order: every handler
    looks at [done] before it calls, and sets it.  Once the callback has
    been called, nothing that is emitted later makes a difference. *)
Theorem sendfile_calls_back_once (property : value → string → value)
    (events more : list ResponseClass.transfer_event) :
  length (ResponseClass.sendfile property events) ≤ 1
  ∧ (ResponseClass.sendfile property events ≠ [] →
     ResponseClass.sendfile property (events ++ more)
     = ResponseClass.sendfile property events).
Proof.
  split; [apply sendfile_from_once|].
  unfold ResponseClass.sendfile.
  generalize ResponseClass.transfer_start.
  induction events as [|ev events IH]; intros st Hcalled; [done|].
  simpl in *.
  destruct (ResponseClass.transfer_step property st ev)
    as [st' calls] eqn:Es.
  destruct (transfer_step_latch _ _ _ _ _ Es)
    as [_ [->|(err & -> & Hd)]].
  - by rewrite IH.
  - by rewrite !sendfile_from_done by done.
Qed.

Lemma sendfile_calls_back_once_witness :
  length (ResponseClass.sendfile (λ _ _, VUndefined)
            [ResponseClass.FileStream; ResponseClass.FileEnd]) ≤ 1
  ∧ (ResponseClass.sendfile (λ _ _, VUndefined)
       [ResponseClass.FileStream; ResponseClass.FileEnd] ≠ [] →
     ResponseClass.sendfile (λ _ _, VUndefined)
       ([ResponseClass.FileStream; ResponseClass.FileEnd]
        ++ [ResponseClass.Finished VUndefined; ResponseClass.Immediate])
     = ResponseClass.sendfile (λ _ _, VUndefined)
         [ResponseClass.FileStream; ResponseClass.FileEnd]).
Proof.
  apply (sendfile_calls_back_once (λ _ _, VUndefined)
           [ResponseClass.FileStream; ResponseClass.FileEnd]
           [ResponseClass.Finished VUndefined; ResponseClass.Immediate]).
Defined.

(** X18.  A transfer started by [sendFile] makes at most one call out of
    it.  With a callback, given in third place or in second, that call goes
    to the callback and [next] is never called.  Without one, the call
    goes to [next], and never with an error that [sendfile] made itself:
    an aborted request is passed over in silence and a directory gives
    [next()]. *)
Theorem sendFile_reacts_once (property : value → string → value)
    (isAbsolute : value → bool) (encodeURI : value → completion)
    (next path_ options callback : value)
    (events : list ResponseClass.transfer_event)
    (pathname : value) (opts : option value)
    (reactions : list ResponseClass.reaction) :
  ResponseClass.sendFile property isAbsolute encodeURI next path_ options
    callback events
  = ResponseClass.SendFileTransfers pathname opts reactions →
  length reactions ≤ 1
  ∧ (ResponseClass.typeof options = "function" ∨ truthy callback = true →
     Forall (λ r, ∃ err, r = ResponseClass.CallCallback err) reactions)
  ∧ (ResponseClass.typeof options ≠ "function" →
     truthy callback = false →
     Forall (λ r, ∃ err, r = ResponseClass.CallNext err
                         ∧ err ≠ Some ResponseClass.RequestAborted
                         ∧ err ≠ Some ResponseClass.IsDirectory)
       reactions).
Proof.
  unfold ResponseClass.sendFile.
  destruct (negb (truthy path_)); [done|].
  destruct (String.eqb_spec (ResponseClass.typeof options) "function")
    as [Hf|Hf].
  - destruct (_ && _); [done|].
    destruct (encodeURI path_); [|done]. intros [= <- <- <-].
    split; [apply reactions_once, sendfile_from_once|].
    split; [|done]. intros _.
    apply Forall_forall. intros r Hr.
    apply list_elem_of_bind in Hr as (err & Hr & _).
    unfold ResponseClass.transfer_callback in Hr.
    rewrite (function_truthy _ Hf) in Hr.
    apply list_elem_of_singleton in Hr as ->. by eexists.
  - destruct (_ && _); [done|].
    destruct (encodeURI path_); [|done]. intros [= <- <- <-].
    split; [apply reactions_once, sendfile_from_once|].
    split.
    + intros [?| Hc]; [done|].
      apply Forall_forall. intros r Hr.
      apply list_elem_of_bind in Hr as (err & Hr & _).
      unfold ResponseClass.transfer_callback in Hr. rewrite Hc in Hr.
      apply list_elem_of_singleton in Hr as ->. by eexists.
    + intros _ Hc.
      apply Forall_forall. intros r Hr.
      apply list_elem_of_bind in Hr as (err & Hr & _).
      unfold ResponseClass.transfer_callback in Hr. rewrite Hc in Hr.
      destruct err as [[| |raised]|]; simpl in Hr;
        repeat case_match;
        try (by apply elem_of_nil in Hr);
        apply list_elem_of_singleton in Hr as ->; by eexists.
Qed.

Lemma sendFile_reacts_once_witness :
  length [ResponseClass.CallNext None] ≤ 1
  ∧ (ResponseClass.typeof VUndefined = "function"
     ∨ truthy VUndefined = true →
     Forall (λ r, ∃ err, r = ResponseClass.CallCallback err)
       [ResponseClass.CallNext None])
  ∧ (ResponseClass.typeof VUndefined ≠ "function" →
     truthy VUndefined = false →
     Forall (λ r, ∃ err, r = ResponseClass.CallNext err
                         ∧ err ≠ Some ResponseClass.RequestAborted
                         ∧ err ≠ Some ResponseClass.IsDirectory)
       [ResponseClass.CallNext None]).
Proof.
  apply (sendFile_reacts_once (λ _ _, VUndefined) (λ _, true)
           (λ v, Returns v) (VFunction 1 1) (VString "/srv/docs")
           VUndefined VUndefined
           [ResponseClass.FileDirectory; ResponseClass.FileEnd]
           (VString "/srv/docs") None).
  reflexivity.
Defined.

(** X19.  The first report of a transfer decides, whatever was emitted
    before it without a report and whatever is emitted after it.  When
    [sendFile] was given no callback: a directory makes it call [next()],
    with no error, and nothing else; the end of the file makes it call
    nothing; so does a response that finishes with an error of code
    ['ECONNRESET'], taken for an aborted request; and an error of the file
    stream that is neither of these codes nor a write error is handed to
    [next]. *)
Theorem sendFile_first_report (property : value → string → value)
    (isAbsolute : value → bool) (encodeURI : value → completion)
    (next path_ options : value) (err : value)
    (quiet later : list ResponseClass.transfer_event)
    (pathname : value) (opts : option value) :
  ResponseClass.sendFile property isAbsolute encodeURI next path_ options
    VUndefined []
  = ResponseClass.SendFileTransfers pathname opts [] →
  ResponseClass.typeof options ≠ "function" →
  ResponseClass.sendfile property quiet = [] →
  ResponseClass.sendFile property isAbsolute encodeURI next path_ options
    VUndefined (quiet ++ ResponseClass.FileDirectory :: later)
  = ResponseClass.SendFileTransfers pathname opts
      [ResponseClass.CallNext None]
  ∧ ResponseClass.sendFile property isAbsolute encodeURI next path_ options
      VUndefined (quiet ++ ResponseClass.FileEnd :: later)
    = ResponseClass.SendFileTransfers pathname opts []
  ∧ (truthy err = true →
     strict_eq_string (property err "code") "ECONNRESET" = true →
     ResponseClass.sendFile property isAbsolute encodeURI next path_
       options VUndefined (quiet ++ ResponseClass.Finished err :: later)
     = ResponseClass.SendFileTransfers pathname opts [])
  ∧ (truthy err = true →
     strict_eq_string (property err "code") "EISDIR" = false →
     strict_eq_string (property err "code") "ECONNABORTED" = false →
     strict_eq_string (property err "syscall") "write" = false →
     ResponseClass.sendFile property isAbsolute encodeURI next path_
       options VUndefined (quiet ++ ResponseClass.FileError err :: later)
     = ResponseClass.SendFileTransfers pathname opts
         [ResponseClass.CallNext (Some (ResponseClass.Raised err))]).
Proof.
  unfold ResponseClass.sendFile.
  destruct (negb (truthy path_)); [done|].
  destruct (String.eqb_spec (ResponseClass.typeof options) "function");
    [done|].
  destruct (_ && _); [done|].
  destruct (encodeURI path_); [|done]. intros [= <- <-] _ Hq.
  split_and!.
  - rewrite (sendfile_first_call property quiet _ later
               (Some ResponseClass.IsDirectory) Hq); [done|].
    intros st Hd. simpl. unfold ResponseClass.ondirectory. by rewrite Hd.
  - rewrite (sendfile_first_call property quiet _ later None Hq); [done|].
    intros st Hd. simpl. unfold ResponseClass.onend. by rewrite Hd.
  - intros Ht Hc.
    rewrite (sendfile_first_call property quiet _ later
               (Some ResponseClass.RequestAborted) Hq); [done|].
    intros st Hd. simpl.
    unfold ResponseClass.onfinish, ResponseClass.onaborted.
    by rewrite Ht, Hc, Hd.
  - intros Ht Hdir Habort Hwrite.
    rewrite (sendfile_first_call property quiet _ later
               (Some (ResponseClass.Raised err)) Hq).
    + simpl. unfold ResponseClass.transfer_callback. simpl.
      by rewrite Ht, Hdir, Habort, Hwrite.
    + intros st Hd. simpl. unfold ResponseClass.onerror. by rewrite Hd.
Qed.

Lemma sendFile_first_report_witness :
  ResponseClass.sendFile (λ _ _, VString "ECONNRESET") (λ _, true)
    (λ v, Returns v) (VFunction 1 1) (VString "/srv/docs") VUndefined
    VUndefined
    ([ResponseClass.FileFile; ResponseClass.FileStream]
     ++ ResponseClass.FileDirectory :: [ResponseClass.FileEnd])
  = ResponseClass.SendFileTransfers (VString "/srv/docs") None
      [ResponseClass.CallNext None]
  ∧ ResponseClass.sendFile (λ _ _, VString "ECONNRESET") (λ _, true)
      (λ v, Returns v) (VFunction 1 1) (VString "/srv/docs") VUndefined
      VUndefined
      ([ResponseClass.FileFile; ResponseClass.FileStream]
       ++ ResponseClass.FileEnd :: [ResponseClass.FileEnd])
    = ResponseClass.SendFileTransfers (VString "/srv/docs") None []
  ∧ (truthy boom = true →
     strict_eq_string ((λ _ _, VString "ECONNRESET") boom "code")
       "ECONNRESET" = true →
     ResponseClass.sendFile (λ _ _, VString "ECONNRESET") (λ _, true)
       (λ v, Returns v) (VFunction 1 1) (VString "/srv/docs") VUndefined
       VUndefined
       ([ResponseClass.FileFile; ResponseClass.FileStream]
        ++ ResponseClass.Finished boom :: [ResponseClass.FileEnd])
     = ResponseClass.SendFileTransfers (VString "/srv/docs") None [])
  ∧ (truthy boom = true →
     strict_eq_string ((λ _ _, VString "ECONNRESET") boom "code")
       "EISDIR" = false →
     strict_eq_string ((λ _ _, VString "ECONNRESET") boom "code")
       "ECONNABORTED" = false →
     strict_eq_string ((λ _ _, VString "ECONNRESET") boom "syscall")
       "write" = false →
     ResponseClass.sendFile (λ _ _, VString "ECONNRESET") (λ _, true)
       (λ v, Returns v) (VFunction 1 1) (VString "/srv/docs") VUndefined
       VUndefined
       ([ResponseClass.FileFile; ResponseClass.FileStream]
        ++ ResponseClass.FileError boom :: [ResponseClass.FileEnd])
     = ResponseClass.SendFileTransfers (VString "/srv/docs") None
         [ResponseClass.CallNext (Some (ResponseClass.Raised boom))]).
Proof.
  apply (sendFile_first_report (λ _ _, VString "ECONNRESET") (λ _, true)
           (λ v, Returns v) (VFunction 1 1) (VString "/srv/docs") VUndefined
           boom [ResponseClass.FileFile; ResponseClass.FileStream]
           [ResponseClass.FileEnd] (VString "/srv/docs") None).
  - reflexivity.
  - discriminate.
  - reflexivity.
Defined.
